(** * EVM word encoding and JSON-to-ABI transcoding

    A shallow embedding of [utils/ethabi.go] (whose word encoders and range
    constants are repeated verbatim in [utils/utils.go]) together with the hex
    prefix helpers of [utils/utils.go].

    Go values are modelled as follows:
    - [*big.Int] is [Z];
    - [uint64], [int64] and [int] are [Z], with the conversions that wrap
      written out ([to_uint64], [to_int64]);
    - [byte] is [Init.Byte.byte], [[]byte] is [list byte];
    - [string] is [string] (a sequence of 8-bit characters, as in Go);
    - [float64] is the primitive binary64 [float];
    - a result pair [([]byte, error)] is [list byte * option error], the nil
      slice and the empty slice both being [[]]. *)

From Stdlib Require Import ZArith List String Ascii Lia Bool Floats.
From coqutil Require Import Byte.
Import ListNotations.
Local Open Scope Z_scope.

(** ** The parsed JSON value (github.com/tidwall/gjson) *)

Module gjson.

(** [gjson.Type], in the order of its constants. *)
Inductive Type_ : Set := Null | False | Number | String | True | JSON.

(** The fields of [gjson.Result] read by the transcoders. *)
Record Result : Set := mkResult {
  Typ : Type_;   (* value.Type *)
  Str : string;  (* value.Str  *)
  Num : float    (* value.Num  *)
}.

End gjson.

(** ** Errors

    One constructor per error the package builds; the comment gives the
    message of the source. *)
Inductive error : Set :=
| ErrNegative                                 (* "Uint256 cannot be negative" *)
| ErrOverflow (val : Z)                       (* "Overflow saving big.Int to EVM word: %v" *)
| ErrOverflowSigned (val : Z)                 (* "Overflow saving signed big.Int to EVM word: %v" *)
| ErrParsing (s : string)                     (* "error parsing %s" *)
| ErrUnsupportedEncoding (t : gjson.Type_)    (* "unsupported encoding for value: %s" *)
| ErrUnsupportedFormat (format : string).     (* "unsupported format: %s" *)

(** ** Fixed-width integers *)

Definition MaxInt64 : Z := 2 ^ 63 - 1.
Definition MinInt64 : Z := - 2 ^ 63.

(** Conversion of an integer to [uint64]: the low 64 bits. *)
Definition to_uint64 (z : Z) : Z := z mod 2 ^ 64.

(** Conversion of an integer to [int64]: the low 64 bits, read as signed. *)
Definition to_int64 (z : Z) : Z := (z + 2 ^ 63) mod 2 ^ 64 - 2 ^ 63.

(** ** Conversion of a [float64] to an integer type

    Go discards the fraction; when the truncated value does not fit the target
    type (or the float is an infinity or a NaN) the conversion still yields a
    value of the target type, which one is left to the implementation. *)
Module float64.

(** The float with its fraction discarded; [None] for infinities and NaN. *)
Definition trunc (f : float) : option Z :=
  match Prim2SF f with
  | S754_zero _ => Some 0
  | S754_finite s m e =>
      let mag := Z.shiftl (Z.pos m) e in
      Some (if s then - mag else mag)
  | S754_infinity _ | S754_nan => None
  end.

(** What an implementation returns where the language leaves it open. *)
Record Arch : Set := mkArch {
  int64_unrepresentable : float -> Z;
  uint64_unrepresentable : float -> Z
}.

(** [int64(f)] *)
Definition to_int64 (A : Arch) (f : float) : Z :=
  match trunc f with
  | Some z =>
      if (MinInt64 <=? z) && (z <=? MaxInt64) then z
      else to_int64 (int64_unrepresentable A f)
  | None => to_int64 (int64_unrepresentable A f)
  end.

(** [uint64(f)] *)
Definition to_uint64 (A : Arch) (f : float) : Z :=
  match trunc f with
  | Some z =>
      if (0 <=? z) && (z <? 2 ^ 64) then z
      else to_uint64 (uint64_unrepresentable A f)
  | None => to_uint64 (uint64_unrepresentable A f)
  end.

(** [f != 0]: IEEE comparison, so both zeros are equal to 0 and NaN is not. *)
Definition neq0 (f : float) : bool := negb (PrimFloat.eqb f PrimFloat.zero).

(** The float denotes the number zero (it is [+0] or [-0]); used to state
    properties, not part of the source. *)
Definition is_zero (f : float) : bool :=
  match Prim2SF f with S754_zero _ => true | _ => false end.

(** An implementation whose conversions saturate and send NaN to 0. *)
Definition saturating : Arch :=
  let negative f :=
    match Prim2SF f with
    | S754_finite s _ _ | S754_infinity s => s
    | _ => false
    end in
  let is_nan f := match Prim2SF f with S754_nan => true | _ => false end in
  {| int64_unrepresentable f :=
       if is_nan f then 0 else if negative f then MinInt64 else MaxInt64;
     uint64_unrepresentable f :=
       if is_nan f then 0 else if negative f then 0 else 2 ^ 64 - 1 |}.

End float64.

(** ** math/big *)

Module big.

(** [x.Sign()] *)
Definition Sign (x : Z) : Z := Z.sgn x.

(** [x.BitLen()]: the length of the absolute value in bits, 0 for 0. *)
Definition BitLen (x : Z) : Z :=
  if x =? 0 then 0 else Z.log2 (Z.abs x) + 1.

(** The [n] low-order bytes of [m], most significant first. *)
Fixpoint be_bytes (n : nat) (m : Z) : list byte :=
  match n with
  | O => []
  | S k => be_bytes k (Z.shiftr m 8) ++ [byte.of_Z m]
  end.

(** [x.Bytes()]: the absolute value as a big-endian byte slice without
    leading zero bytes. *)
Definition Bytes (x : Z) : list byte :=
  be_bytes (Z.to_nat ((BitLen x + 7) / 8)) (Z.abs x).

(** The value of a digit character, letters standing for 10 to 35 in either
    case. *)
Definition digitVal (c : ascii) : option Z :=
  let n := Z.of_nat (nat_of_ascii c) in
  if (48 <=? n) && (n <=? 57) then Some (n - 48)
  else if (97 <=? n) && (n <=? 122) then Some (n - 97 + 10)
  else if (65 <=? n) && (n <=? 90) then Some (n - 65 + 10)
  else None.

Fixpoint scanDigits (base acc : Z) (s : string) : option Z :=
  match s with
  | EmptyString => Some acc
  | String.String c rest =>
      match digitVal c with
      | Some d => if d <? base then scanDigits base (acc * base + d) rest else None
      | None => None
      end
  end.

(** [new(big.Int).SetString(s, base)] for an explicit base (10 or 16 here):
    an optional sign, then at least one digit of the base, and nothing else;
    [None] stands for [ok == false]. *)
Definition SetString (s : string) (base : Z) : option Z :=
  let '(neg, digits) :=
    match s with
    | String.String "-"%char rest => (true, rest)
    | String.String "+"%char rest => (false, rest)
    | _ => (false, s)
    end in
  match digits with
  | EmptyString => None
  | _ => option_map (fun m => if neg : bool then - m else m)
                    (scanDigits base 0 digits)
  end.

End big.

(** ** encoding/binary *)

Module binary.

(** The eight bytes [BigEndian.PutUint64(b, v)] stores in [b[0..7]]. *)
Definition PutUint64 (v : Z) : list byte :=
  [ byte.of_Z (Z.shiftr v 56); byte.of_Z (Z.shiftr v 48);
    byte.of_Z (Z.shiftr v 40); byte.of_Z (Z.shiftr v 32);
    byte.of_Z (Z.shiftr v 24); byte.of_Z (Z.shiftr v 16);
    byte.of_Z (Z.shiftr v 8);  byte.of_Z v ].

End binary.

(** [make([]byte, n)] *)
Definition make (n : Z) : list byte := repeat Byte.x00 (Z.to_nat n).

(** [len(b)] *)
Definition len (b : list byte) : Z := Z.of_nat (List.length b).

(** ** github.com/ethereum/go-ethereum/common *)

Module common.

(** [LeftPadBytes(slice, l)]: the slice itself when it has [l] bytes or
    more, otherwise a fresh zeroed slice of [l] bytes with [slice] copied to
    its end. *)
Definition LeftPadBytes (slice : list byte) (l : Z) : list byte :=
  if l <=? len slice then slice
  else firstn (Z.to_nat (l - len slice)) (make l) ++ slice.

End common.

(** ** Reading a word back (used to state the properties, not part of the
    source) *)

(** The unsigned big-endian value of a byte sequence. *)
Definition be_decode (w : list byte) : Z :=
  fold_left (fun acc b => acc * 256 + byte.unsigned b) w 0.

(** The two's-complement value of a byte sequence read as a 256-bit word. *)
Definition decode_int256 (w : list byte) : Z :=
  let u := be_decode w in
  if u <? 2 ^ 255 then u else u - 2 ^ 256.

(** ** utils/utils.go: constants and hex prefixes *)

(** EVMWordByteLen the length of an EVM Word Byte *)
Definition EVMWordByteLen : Z := 32.
(** EVMWordHexLen the length of an EVM Word Hex *)
Definition EVMWordHexLen : Z := EVMWordByteLen * 2.

(** [len(s)] of a string, and [s[i]]. *)
Definition strlen (s : string) : Z := Z.of_nat (String.length s).

(** HasHexPrefix returns true if the string starts with 0x. *)
Definition HasHexPrefix (str : string) : bool :=
  (2 <=? strlen str)
  && match String.get 0 str with Some c => Ascii.eqb c "0" | None => false end
  && match String.get 1 str with Some c => Ascii.eqb c "x" | None => false end.

(** RemoveHexPrefix removes the prefix (0x) of a given hex string. *)
Definition RemoveHexPrefix (str : string) : string :=
  if HasHexPrefix str
  then String.substring 2 (String.length str - 2) str
  else str.

(** ** "Constants" used by EVM words, as [init] computes them *)

Definition maxUint257 : Z := 2 ^ 256.
(** MaxUint256 represents the largest number represented by an EVM word *)
Definition MaxUint256 : Z := maxUint257 - 1.
(** MaxInt256 represents the largest number represented by an EVM word using
    signed encoding. *)
Definition MaxInt256 : Z := MaxUint256 / 2.
(** MinInt256 represents the smallest number represented by an EVM word using
    signed encoding. *)
Definition MinInt256 : Z := - MaxInt256.

(** ** utils/ethabi.go *)

Definition FormatBytes : string := "bytes".
Definition FormatUint256 : string := "uint256".
Definition FormatInt256 : string := "int256".
Definition FormatBool : string := "bool".

(** [buffer.Write(b)] on a [bytes.Buffer]: appends, and its error is always
    nil. *)
Definition Buffer_Write (buffer b : list byte) : list byte * option error :=
  (buffer ++ b, None).

Fixpoint ConcatBytes_from (buffer : list byte) (bufs : list (list byte))
  : list byte * option error :=
  match bufs with
  | [] => (buffer, None)
  | b :: rest =>
      match Buffer_Write buffer b with
      | (_, Some err) => ([], Some err)
      | (buffer', None) => ConcatBytes_from buffer' rest
      end
  end.

(** ConcatBytes appends a bunch of byte arrays into a single byte array *)
Definition ConcatBytes (bufs : list (list byte)) : list byte * option error :=
  ConcatBytes_from [] bufs.

(** EVMWordUint64 returns a uint64 as an EVM word byte array. *)
Definition EVMWordUint64 (val : Z) : list byte :=
  let word := make EVMWordByteLen in
  firstn (Z.to_nat (EVMWordByteLen - 8)) word ++ binary.PutUint64 val.

(** EVMWordSignedBigInt returns a big.Int as an EVM word byte array, with
    support for a signed representation. Returns error on overflow. *)
Definition EVMWordSignedBigInt (val : Z) : list byte * option error :=
  let bytes := big.Bytes val in
  if big.BitLen val >? 8 * EVMWordByteLen - 1 then
    ([], Some (ErrOverflowSigned val))
  else
    let bytes :=
      if big.Sign val =? -1 then
        let twosComplement := val + MaxUint256 in
        big.Bytes (twosComplement + 1)
      else bytes in
    (common.LeftPadBytes bytes EVMWordByteLen, None).

(** EVMWordBigInt returns a big.Int as an EVM word byte array, with support for
    a signed representation. Returns error on overflow. *)
Definition EVMWordBigInt (val : Z) : list byte * option error :=
  if big.Sign val =? -1 then ([], Some ErrNegative)
  else
    let bytes := big.Bytes val in
    if len bytes >? EVMWordByteLen then ([], Some (ErrOverflow val))
    else (common.LeftPadBytes bytes EVMWordByteLen, None).

(** [output.SetString(...)] of the two integer transcoders. *)
Definition parseString (str : string) : option Z :=
  if HasHexPrefix str
  then big.SetString (RemoveHexPrefix str) 16
  else big.SetString str 10.

Section Transcoders.

(** The float-to-integer conversions of the implementation at hand. *)
Variable arch : float64.Arch.

(** EVMTranscodeBytes converts a json input to an EVM bytes array *)
Definition EVMTranscodeBytes (value : gjson.Result) : list byte * option error :=
  let prefix := EVMWordUint64 (EVMWordByteLen * 2) in
  match gjson.Typ value with
  | gjson.String =>
      let input := list_byte_of_string (gjson.Str value) in
      let length := len input in
      ConcatBytes
        [ prefix;
          EVMWordUint64 (to_uint64 length);
          input;
          make (EVMWordByteLen - Z.rem length EVMWordByteLen) ]
  | gjson.False =>
      ConcatBytes [ prefix; EVMWordUint64 EVMWordByteLen; EVMWordUint64 0 ]
  | gjson.True =>
      ConcatBytes [ prefix; EVMWordUint64 EVMWordByteLen; EVMWordUint64 1 ]
  | gjson.Number =>
      match EVMWordSignedBigInt (float64.to_int64 arch (gjson.Num value)) with
      | (_, Some _) => ([], None)
      | (word, None) =>
          ConcatBytes [ prefix; EVMWordUint64 EVMWordByteLen; word ]
      end
  | t => ([], Some (ErrUnsupportedEncoding t))
  end.

(** EVMTranscodeBool converts a json input to an EVM bool *)
Definition EVMTranscodeBool (value : gjson.Result) : list byte * option error :=
  let output (* uint64 *) := 0 in
  match gjson.Typ value with
  | gjson.Number =>
      let output := if float64.neq0 (gjson.Num value) then 1 else output in
      (EVMWordUint64 output, None)
  | gjson.String =>
      let output := if strlen (gjson.Str value) >? 0 then 1 else output in
      (EVMWordUint64 output, None)
  | gjson.True =>
      let output := 1 in
      (EVMWordUint64 output, None)
  | gjson.False | gjson.Null =>
      (EVMWordUint64 output, None)
  | t => ([], Some (ErrUnsupportedEncoding t))
  end.

(** EVMTranscodeUint256 converts a json input to an EVM uint256 *)
Definition EVMTranscodeUint256 (value : gjson.Result) : list byte * option error :=
  let output := 0 in
  match gjson.Typ value with
  | gjson.String =>
      match parseString (gjson.Str value) with
      | None => ([], Some (ErrParsing (gjson.Str value)))
      | Some output => EVMWordBigInt output
      end
  | gjson.Number =>
      let output := float64.to_uint64 arch (gjson.Num value) in
      EVMWordBigInt output
  | gjson.Null => EVMWordBigInt output
  | t => ([], Some (ErrUnsupportedEncoding t))
  end.

(** EVMTranscodeInt256 converts a json input to an EVM int256 *)
Definition EVMTranscodeInt256 (value : gjson.Result) : list byte * option error :=
  let output := 0 in
  match gjson.Typ value with
  | gjson.String =>
      match parseString (gjson.Str value) with
      | None => ([], Some (ErrParsing (gjson.Str value)))
      | Some output => EVMWordSignedBigInt output
      end
  | gjson.Number =>
      let output := float64.to_int64 arch (gjson.Num value) in
      EVMWordSignedBigInt output
  | gjson.Null => EVMWordSignedBigInt output
  | t => ([], Some (ErrUnsupportedEncoding t))
  end.

(** EVMTranscodeJSONWithFormat given a JSON input and a format specifier,
    encode the value for use by the EVM *)
Definition EVMTranscodeJSONWithFormat (value : gjson.Result) (format : string)
  : list byte * option error :=
  if String.eqb format FormatBytes then EVMTranscodeBytes value
  else if String.eqb format FormatUint256 then EVMTranscodeUint256 value
  else if String.eqb format FormatInt256 then EVMTranscodeInt256 value
  else if String.eqb format FormatBool then EVMTranscodeBool value
  else ([], Some (ErrUnsupportedFormat format)).

End Transcoders.

(** ** utils/utils.go: the other helpers

    The library functions they call come first, each in a module named after
    its package. *)

Module strings.

(** [strings.ToLower] on one character of a string of ASCII characters: the
    letters [A] to [Z] become [a] to [z]. *)
Definition lower (c : ascii) : ascii :=
  let n := nat_of_ascii c in
  if (65 <=? n)%nat && (n <=? 90)%nat then ascii_of_nat (n + 32) else c.

(** [strings.ToLower(s)]. Go maps a string that holds a byte above 127 rune by
    rune; the model leaves such bytes as they are. The only use below compares
    the result for two bytes with ["0x"], and there the outcome is the same:
    two bytes that are not both ASCII make one rune, or hold an invalid byte
    that comes out as U+FFFD. *)
Fixpoint ToLower (s : string) : string :=
  match s with
  | EmptyString => EmptyString
  | String.String c rest => String.String (lower c) (ToLower rest)
  end.

End strings.

Module hex.

(** [hextable] of encoding/hex. *)
Definition hextable : string := "0123456789abcdef".

(** [hextable[n]] *)
Definition digit (n : Z) : ascii :=
  match String.get (Z.to_nat n) hextable with Some c => c | None => "0"%char end.

(** [hex.EncodeToString(src)]: two digits per byte, [hextable[v>>4]] then
    [hextable[v&0x0f]]. *)
Fixpoint EncodeToString (src : list byte) : string :=
  match src with
  | [] => EmptyString
  | v :: rest =>
      String.String (digit (Z.shiftr (byte.unsigned v) 4))
        (String.String (digit (Z.land (byte.unsigned v) 15))
           (EncodeToString rest))
  end.

End hex.

Module fmt.

(** The digits of [u] in base 16, lower case, written before [buf]: the loop
    of [fmtInteger] ([for u >= 16 { buf[i] = digits[u&0xF]; u >>= 4 }], then
    the last digit). [fuel] bounds the number of turns of the loop. *)
Fixpoint hex_loop (fuel : nat) (u : Z) (buf : string) : string :=
  match fuel with
  | O => String.String (hex.digit u) buf
  | S k =>
      if u >=? 16
      then hex_loop k (Z.shiftr u 4) (String.String (hex.digit (Z.land u 15)) buf)
      else String.String (hex.digit u) buf
  end.

(** [fmt.Sprintf("%x", u)] for a [uint64]: at most 16 digits. *)
Definition Sprintf_x (u : Z) : string := hex_loop 15 u "".

End fmt.

Module strconv.

(** The two errors of [strconv.ParseUint]. *)
Inductive NumError : Set := ErrSyntax | ErrRange.

(** The value of a digit character in [ParseUint]. *)
Definition digit (c : ascii) : option Z :=
  let n := Z.of_nat (nat_of_ascii c) in
  if (48 <=? n) && (n <=? 57) then Some (n - 48)
  else if (97 <=? n) && (n <=? 122) then Some (n - 97 + 10)
  else if (65 <=? n) && (n <=? 90) then Some (n - 65 + 10)
  else None.

(** The loop of [ParseUint] over the characters, from the value [n] read so
    far, for an explicit base and [bitSize] 64. *)
Fixpoint ParseUint_loop (base cutoff maxVal n : Z) (s : string)
  : Z * option NumError :=
  match s with
  | EmptyString => (n, None)
  | String.String c rest =>
      match digit c with
      | None => (0, Some ErrSyntax)
      | Some d =>
          if d >=? base then (0, Some ErrSyntax)
          else if n >=? cutoff then (maxVal, Some ErrRange)
          else
            let n := to_uint64 (n * base) in
            let n1 := to_uint64 (n + d) in
            if (n1 <? n) || (n1 >? maxVal) then (maxVal, Some ErrRange)
            else ParseUint_loop base cutoff maxVal n1 rest
      end
  end.

(** [strconv.ParseUint(s, 16, 64)] *)
Definition ParseUint16 (s : string) : Z * option NumError :=
  if strlen s =? 0 then (0, Some ErrSyntax)
  else
    let maxUint64 := 2 ^ 64 - 1 in
    let cutoff := maxUint64 / 16 + 1 in
    ParseUint_loop 16 cutoff maxUint64 0 s.

End strconv.

(** HexToUint64 converts a given hex string to 64-bit unsigned integer. *)
Definition HexToUint64 (hex : string) : Z * option strconv.NumError :=
  strconv.ParseUint16 (RemoveHexPrefix hex).

(** Uint64ToHex converts the given uint64 value to a hex-value string. *)
Definition Uint64ToHex (i : Z) : string := ("0x" ++ fmt.Sprintf_x i)%string.

(** AddHexPrefix adds the previx (0x) to a given hex string. *)
Definition AddHexPrefix (str : string) : string :=
  if (strlen str <? 2)
     || ((strlen str >? 1)
         && negb (String.eqb (strings.ToLower (String.substring 0 2 str)) "0x"))
  then ("0x" ++ str)%string
  else str.

(** StringToHex converts a standard string to a hex encoded string. *)
Definition StringToHex (s : string) : string :=
  AddHexPrefix (hex.EncodeToString (list_byte_of_string s)).

(** MaxUint64 finds the maximum value of a list of uint64s. *)
Definition MaxUint64 (uints : list Z) : Z :=
  fold_left (fun max n => if n >? max then n else max) uints 0.

(** MaxInt finds the maximum value of a list of ints. *)
Definition MaxInt (ints : list Z) : Z :=
  fold_left (fun max n => if n >? max then n else max) ints 0.

(** [input[i]] on a byte slice, for an index in range. *)
Definition index (input : list byte) (i : Z) : byte :=
  nth (Z.to_nat i) input Byte.x00.

(** The double quote and the single quote. *)
Definition dquote : byte := Byte.x22.
Definition squote : byte := Byte.x27.

(** IsQuoted checks if the first and last characters are either a double
    quote or a single quote. *)
Definition IsQuoted (input : list byte) : bool :=
  (len input >=? 2)
  && ((Byte.eqb (index input 0) dquote
       && Byte.eqb (index input (len input - 1)) dquote)
      || (Byte.eqb (index input 0) squote
          && Byte.eqb (index input (len input - 1)) squote)).

(** RemoveQuotes removes the first and last character if they are both
    either a double quote or a single quote, otherwise it is a noop. *)
Definition RemoveQuotes (input : list byte) : list byte :=
  if IsQuoted input
  then firstn (Z.to_nat (len input - 1 - 1)) (skipn 1 input)
  else input.

(** [common.Address], an array of 20 bytes; the helpers only compare
    addresses. *)
Definition Address : Type := list byte.

Definition Address_eqb (a b : Address) : bool :=
  if list_eq_dec Byte.byte_eq_dec a b then true else false.

(** ZeroAddress is an empty address, otherwise in Ethereum as
    0x0000000000000000000000000000000000000000 *)
Definition ZeroAddress : Address := repeat Byte.x00 20.

(** WithoutZeroAddresses returns a list of addresses excluding the zero
    address. *)
Definition WithoutZeroAddresses (addresses : list Address) : list Address :=
  fold_left
    (fun withoutZeros address =>
       if negb (Address_eqb address ZeroAddress)
       then withoutZeros ++ [address]
       else withoutZeros)
    addresses [].

(** IsEmptyAddress checks that the address is empty, synonymous with the zero
    account/address. *)
Definition IsEmptyAddress (addr : Address) : bool := Address_eqb addr ZeroAddress.

(** The fields of [ethereum.FilterQuery] the helpers set or read; a nil
    [*big.Int] is [None]. *)
Record FilterQuery : Type := mkFilterQuery {
  FromBlock : option Z;
  ToBlock : option Z;
  Addresses : list Address;
  Topics : list (list (list byte))
}.

(** ToFilterQueryFor returns a struct that encapsulates desired arguments used
    to filter event logs. *)
Definition ToFilterQueryFor (fromBlock : option Z) (addresses : list Address)
  : FilterQuery :=
  {| FromBlock := fromBlock;
     ToBlock := None;
     Addresses := WithoutZeroAddresses addresses;
     Topics := [] |}.

Module hexutil.

(** [hexutil.EncodeBig(bigint)]: ["0x0"] for zero, otherwise what
    [fmt.Sprintf("%#x", bigint)] gives, the sign, ["0x"] and the digits of the
    magnitude. *)
Definition EncodeBig (bigint : Z) : string :=
  let nbits := big.BitLen bigint in
  if nbits =? 0 then "0x0"%string
  else
    let digits := fmt.hex_loop (Z.to_nat nbits) (Z.abs bigint) "" in
    if bigint <? 0 then ("-0x" ++ digits)%string else ("0x" ++ digits)%string.

End hexutil.

Definition toBlockNumArg (number : option Z) : string :=
  match number with
  | None => "latest"%string
  | Some number => hexutil.EncodeBig number
  end.

(** The values of the map [ToFilterArg] builds. *)
Inductive FilterArg : Type :=
| ArgString (s : string)
| ArgAddresses (a : list Address)
| ArgTopics (t : list (list (list byte))).

(** A [map[string]interface{}] as the list of its entries by key; [m[k] = v]
    replaces the entry of [k] or adds one, [m[k]] reads it. *)
Fixpoint map_set (k : string) (v : FilterArg) (m : list (string * FilterArg))
  : list (string * FilterArg) :=
  match m with
  | [] => [(k, v)]
  | (k', v') :: rest =>
      if String.eqb k k' then (k, v) :: rest else (k', v') :: map_set k v rest
  end.

Fixpoint map_get (k : string) (m : list (string * FilterArg)) : option FilterArg :=
  match m with
  | [] => None
  | (k', v') :: rest => if String.eqb k k' then Some v' else map_get k rest
  end.

(** ToFilterArg filters logs with the given FilterQuery *)
Definition ToFilterArg (q : FilterQuery) : list (string * FilterArg) :=
  let arg :=
    [ ("fromBlock"%string, ArgString (toBlockNumArg (FromBlock q)));
      ("toBlock"%string, ArgString (toBlockNumArg (ToBlock q)));
      ("address"%string, ArgAddresses (Addresses q));
      ("topics"%string, ArgTopics (Topics q)) ] in
  match FromBlock q with
  | None => map_set "fromBlock" (ArgString "0x0") arg
  | Some _ => arg
  end.

(** ** CoerceInterfaceMapToStringMap

    A dynamic value ([interface{}]) is one of the three types the function
    tells apart, or anything else. A map is the list of its entries, whose
    keys are distinct; the order of the list stands for the order in which
    [range] visits the entries, which Go leaves open. *)

(** A key of a [map[interface{}]interface{}]: a string, or a value of another
    type. *)
Inductive key : Set := KeyString (s : string) | KeyOther (n : nat).

#[warnings="-register-all"]
Inductive value : Set :=
| Other (n : nat)                          (* any other type: returned as it is *)
| StringMap (m : list (string * value))    (* map[string]interface{} *)
| InterfaceMap (m : list (key * value))    (* map[interface{}]interface{} *)
| Slice (l : list value).                  (* []interface{} *)

(** What the function returns: a value and a nil error, or nil and the error
    "Unable to coerce key %T %v to a string" for the key. *)
Inductive coerced : Set := Coerced (v : value) | UnableToCoerce (k : key).

(** The three loops of the function, over the entries of a string map, over
    those of an interface map and over the elements of a slice; [coerce] is
    the function itself, called on each value. A loop stops at the first
    error. *)
Definition range_string_map (coerce : value -> coerced)
  : list (string * value) -> list (string * value) + key :=
  fix range (entries : list (string * value)) :=
    match entries with
    | [] => inl []
    | (k, v) :: rest =>
        match coerce v with
        | UnableToCoerce err => inr err
        | Coerced c =>
            match range rest with
            | inr err => inr err
            | inl typed => inl ((k, c) :: typed)
            end
        end
    end.

Definition range_interface_map (coerce : value -> coerced)
  : list (key * value) -> list (string * value) + key :=
  fix range (entries : list (key * value)) :=
    match entries with
    | [] => inl []
    | (k, v) :: rest =>
        match k with
        | KeyOther _ => inr k
        | KeyString coercedKey =>
            match coerce v with
            | UnableToCoerce err => inr err
            | Coerced c =>
                match range rest with
                | inr err => inr err
                | inl m => inl ((coercedKey, c) :: m)
                end
            end
        end
    end.

Definition range_slice (coerce : value -> coerced)
  : list value -> list value + key :=
  fix range (elements : list value) :=
    match elements with
    | [] => inl []
    | v :: rest =>
        match coerce v with
        | UnableToCoerce err => inr err
        | Coerced c =>
            match range rest with
            | inr err => inr err
            | inl r => inl (c :: r)
            end
        end
    end.

(** CoerceInterfaceMapToStringMap converts map[interface{}]interface{}
    (interface maps) to map[string]interface{} (string maps) and
    []interface{} with interface maps to string maps. For a string map the
    source stores each coerced value back under its key and returns the map
    itself; the model gives the map returned. *)
Fixpoint CoerceInterfaceMapToStringMap (input : value) : coerced :=
  match input with
  | StringMap typed =>
      match range_string_map CoerceInterfaceMapToStringMap typed with
      | inl typed => Coerced (StringMap typed)
      | inr err => UnableToCoerce err
      end
  | InterfaceMap typed =>
      match range_interface_map CoerceInterfaceMapToStringMap typed with
      | inl m => Coerced (StringMap m)
      | inr err => UnableToCoerce err
      end
  | Slice typed =>
      match range_slice CoerceInterfaceMapToStringMap typed with
      | inl r => Coerced (Slice r)
      | inr err => UnableToCoerce err
      end
  | Other _ => Coerced input
  end.

(** No interface map is left anywhere in the value (used to state
    properties, not part of the source). *)
Fixpoint string_maps_only (v : value) : bool :=
  match v with
  | Other _ => true
  | StringMap m => forallb (fun e => string_maps_only (snd e)) m
  | InterfaceMap _ => false
  | Slice l => forallb string_maps_only l
  end.

(** Every key of every interface map in the value is a string (used to state
    properties, not part of the source). *)
Definition is_string (k : key) : bool :=
  match k with KeyString _ => true | KeyOther _ => false end.

Fixpoint string_keys (v : value) : bool :=
  match v with
  | Other _ => true
  | StringMap m => forallb (fun e => string_keys (snd e)) m
  | InterfaceMap m =>
      forallb (fun e => is_string (fst e) && string_keys (snd e)) m
  | Slice l => forallb string_keys l
  end.

(** ** Reading a [bytes] encoding back (used to state a property, not part of
    the source) *)

(** The content of a dynamic [bytes] value: the length is the second word,
    the content follows it. *)
Definition decode_bytes (out : list byte) : list byte :=
  let length := be_decode (firstn 32 (skipn 32 out)) in
  firstn (Z.to_nat length) (skipn 64 out).

(** * Properties *)

(** ** Byte sequences and their big-endian value *)

Section BigEndian.

Let step (acc : Z) (b : byte) : Z := acc * 256 + byte.unsigned b.

Lemma fold_step_acc (l : list byte) (a : Z) :
  fold_left step l a = a * 256 ^ len l + fold_left step l 0.
Proof.
  unfold len. revert a.
  induction l as [|b l IH]; intro a; cbn [fold_left List.length].
  - change (Z.of_nat 0) with 0. rewrite Z.pow_0_r. lia.
  - rewrite IH, (IH (step 0 b)). unfold step.
    rewrite Nat2Z.inj_succ, Z.pow_succ_r by lia. ring.
Qed.

Lemma be_decode_app (l1 l2 : list byte) :
  be_decode (l1 ++ l2) = be_decode l1 * 256 ^ len l2 + be_decode l2.
Proof.
  unfold be_decode. rewrite fold_left_app.
  apply (fold_step_acc l2).
Qed.

Lemma be_decode_snoc (l : list byte) (b : byte) :
  be_decode (l ++ [b]) = be_decode l * 256 + byte.unsigned b.
Proof. rewrite be_decode_app. reflexivity. Qed.

Lemma be_decode_zeros (n : nat) : be_decode (repeat Byte.x00 n) = 0.
Proof.
  unfold be_decode. induction n as [|n IH]; [reflexivity|].
  cbn [repeat fold_left]. exact IH.
Qed.

Lemma be_decode_pad (n : nat) (l : list byte) :
  be_decode (repeat Byte.x00 n ++ l) = be_decode l.
Proof. rewrite be_decode_app, be_decode_zeros. lia. Qed.

Lemma be_decode_range (l : list byte) : 0 <= be_decode l < 256 ^ len l.
Proof.
  induction l as [|b l IH] using rev_ind.
  - cbv. split; congruence.
  - rewrite be_decode_snoc. unfold len in *.
    rewrite length_app, Nat2Z.inj_add. cbn [List.length].
    change (Z.of_nat 1) with 1. rewrite Z.pow_add_r, Z.pow_1_r by lia.
    pose proof (byte.unsigned_range b) as Hb.
    change (2 ^ 8) with 256 in Hb. nia.
Qed.

End BigEndian.

Lemma len_app (a b : list byte) : len (a ++ b) = len a + len b.
Proof. unfold len. rewrite length_app. lia. Qed.

Lemma len_nonneg (a : list byte) : 0 <= len a.
Proof. unfold len. lia. Qed.

Lemma len_make (n : Z) : 0 <= n -> len (make n) = n.
Proof. intro H. unfold len, make. rewrite repeat_length. lia. Qed.

Lemma firstn_make (k n : Z) :
  0 <= k <= n -> firstn (Z.to_nat k) (make n) = repeat Byte.x00 (Z.to_nat k).
Proof.
  intros [Hk Hn]. unfold make.
  replace (Z.to_nat n) with (Z.to_nat k + Z.to_nat (n - k))%nat by lia.
  rewrite repeat_app, firstn_app, repeat_length, Nat.sub_diag.
  rewrite firstn_O, app_nil_r.
  rewrite firstn_all2 by (rewrite repeat_length; lia). reflexivity.
Qed.

(** ** math/big: bit length and bytes *)

Lemma be_bytes_length (n : nat) (m : Z) : List.length (big.be_bytes n m) = n.
Proof.
  revert m. induction n as [|n IH]; intro m; cbn [big.be_bytes].
  - reflexivity.
  - rewrite length_app, IH. cbn. lia.
Qed.

Lemma be_decode_be_bytes (n : nat) (m : Z) :
  be_decode (big.be_bytes n m) = m mod 256 ^ Z.of_nat n.
Proof.
  revert m. induction n as [|n IH]; intro m; cbn [big.be_bytes].
  - change (Z.of_nat 0) with 0. rewrite Z.pow_0_r, Z.mod_1_r. reflexivity.
  - rewrite be_decode_snoc, IH, byte.unsigned_of_Z. unfold byte.wrap.
    rewrite Z.shiftr_div_pow2 by lia. change (2 ^ 8) with 256.
    rewrite Nat2Z.inj_succ, Z.pow_succ_r by lia.
    rewrite (Z.rem_mul_r m 256 (256 ^ Z.of_nat n)) by lia. ring.
Qed.

Lemma BitLen_nonneg (x : Z) : 0 <= big.BitLen x.
Proof.
  unfold big.BitLen. destruct (x =? 0); [lia|].
  pose proof (Z.log2_nonneg (Z.abs x)). lia.
Qed.

Lemma BitLen_le_iff (x n : Z) :
  0 <= n -> (big.BitLen x <= n <-> Z.abs x < 2 ^ n).
Proof.
  intro Hn. unfold big.BitLen. destruct (Z.eqb_spec x 0) as [->|Hx].
  - cbn [Z.abs]. pose proof (Z.pow_pos_nonneg 2 n). lia.
  - pose proof (Z.log2_lt_pow2 (Z.abs x) n). lia.
Qed.

Lemma abs_lt_pow2_BitLen (x : Z) : Z.abs x < 2 ^ big.BitLen x.
Proof. apply BitLen_le_iff; [apply BitLen_nonneg | lia]. Qed.

Lemma len_Bytes (x : Z) : len (big.Bytes x) = (big.BitLen x + 7) / 8.
Proof.
  unfold len, big.Bytes. rewrite be_bytes_length.
  pose proof (BitLen_nonneg x).
  rewrite Z2Nat.id; [reflexivity | apply Z.div_pos; lia].
Qed.

Lemma be_decode_Bytes (x : Z) : be_decode (big.Bytes x) = Z.abs x.
Proof.
  unfold big.Bytes. rewrite be_decode_be_bytes.
  pose proof (BitLen_nonneg x) as Hb.
  set (k := (big.BitLen x + 7) / 8).
  assert (Hk : 0 <= k) by (apply Z.div_pos; lia).
  rewrite Z2Nat.id by exact Hk.
  apply Z.mod_small. split; [lia|].
  change 256 with (2 ^ 8). rewrite <- Z.pow_mul_r by lia.
  apply Z.lt_le_trans with (2 ^ big.BitLen x); [apply abs_lt_pow2_BitLen|].
  apply Z.pow_le_mono_r; [lia|].
  pose proof (Z.mul_div_le (big.BitLen x + 7) 8).
  pose proof (Z.mod_pos_bound (big.BitLen x + 7) 8).
  pose proof (Z.div_mod (big.BitLen x + 7) 8). subst k. lia.
Qed.

(** [Bytes] is the minimal representation: empty for 0, and otherwise its
    first byte is not zero. *)
Lemma be_bytes_head (k : nat) (m : Z) :
  big.be_bytes (S k) m
  = byte.of_Z (Z.shiftr m (8 * Z.of_nat k)) :: big.be_bytes k m.
Proof.
  revert m. induction k as [|k IH]; intro m.
  - reflexivity.
  - change (big.be_bytes (S (S k)) m)
      with (big.be_bytes (S k) (Z.shiftr m 8) ++ [byte.of_Z m]).
    rewrite IH, Z.shiftr_shiftr by lia.
    replace (8 + 8 * Z.of_nat k) with (8 * Z.of_nat (S k)) by lia.
    reflexivity.
Qed.

Lemma Bytes_zero : big.Bytes 0 = [].
Proof. reflexivity. Qed.

Lemma Bytes_no_leading_zero (x : Z) (b : byte) (rest : list byte) :
  big.Bytes x = b :: rest -> b <> Byte.x00.
Proof.
  unfold big.Bytes. intros H Hb.
  destruct (Z.eq_dec x 0) as [->|Hx]; [discriminate|].
  assert (Hl : big.BitLen x = Z.log2 (Z.abs x) + 1).
  { unfold big.BitLen. destruct (Z.eqb_spec x 0); [contradiction | reflexivity]. }
  pose proof (Z.log2_nonneg (Z.abs x)) as Hlog.
  pose proof (Z.log2_spec (Z.abs x) ltac:(lia)) as [Hlo Hhi].
  set (m := Z.abs x) in *. set (L := Z.log2 m) in *.
  pose proof (Z.div_mod (big.BitLen x + 7) 8 ltac:(lia)) as Hd.
  pose proof (Z.mod_pos_bound (big.BitLen x + 7) 8 eq_refl) as Hm.
  destruct (Z.to_nat ((big.BitLen x + 7) / 8)) as [|k] eqn:Hn; [lia|].
  assert (Hk : 8 * Z.of_nat k <= L < 8 * Z.of_nat k + 8) by lia.
  rewrite be_bytes_head in H.
  pose proof (f_equal (fun l => byte.unsigned (hd Byte.x00 l)) H) as Hhead.
  cbn beta in Hhead. cbn [hd] in Hhead. rewrite Hb in Hhead.
  rewrite byte.unsigned_of_Z in Hhead. unfold byte.wrap in Hhead.
  rewrite Z.shiftr_div_pow2 in Hhead by lia.
  change (byte.unsigned Byte.x00) with 0 in Hhead.
  assert (Hq : 1 <= m / 2 ^ (8 * Z.of_nat k) < 2 ^ 8).
  { split.
    - apply Z.div_le_lower_bound; [apply Z.pow_pos_nonneg; lia|].
      rewrite Z.mul_1_r. apply Z.le_trans with (2 ^ L); [|exact Hlo].
      apply Z.pow_le_mono_r; lia.
    - apply Z.div_lt_upper_bound; [apply Z.pow_pos_nonneg; lia|].
      rewrite <- Z.pow_add_r by lia.
      apply Z.lt_le_trans with (2 ^ Z.succ L); [exact Hhi|].
      apply Z.pow_le_mono_r; lia. }
  rewrite Z.mod_small in Hhead by lia. lia.
Qed.

(** A value below [2 ^ (8 * n)] has at most [n] bytes. *)
Lemma len_Bytes_le (x n : Z) :
  0 <= n -> Z.abs x < 2 ^ (8 * n) -> len (big.Bytes x) <= n.
Proof.
  intros Hn Hx. rewrite len_Bytes.
  assert (big.BitLen x <= 8 * n) by (apply BitLen_le_iff; [lia | exact Hx]).
  apply Z.lt_succ_r. apply Z.div_lt_upper_bound; lia.
Qed.

(** ** common.LeftPadBytes on a slice that fits *)

Lemma LeftPadBytes_fits (slice : list byte) (l : Z) :
  len slice <= l ->
  common.LeftPadBytes slice l
  = repeat Byte.x00 (Z.to_nat (l - len slice)) ++ slice.
Proof.
  intro H. unfold common.LeftPadBytes. pose proof (len_nonneg slice).
  destruct (Z.leb_spec l (len slice)).
  - replace (l - len slice) with 0 by lia. reflexivity.
  - rewrite firstn_make by lia. reflexivity.
Qed.

Lemma len_LeftPadBytes (slice : list byte) (l : Z) :
  len slice <= l -> len (common.LeftPadBytes slice l) = l.
Proof.
  intro H. rewrite LeftPadBytes_fits by exact H. pose proof (len_nonneg slice).
  rewrite len_app. unfold len at 1. rewrite repeat_length. lia.
Qed.

Lemma be_decode_LeftPadBytes (slice : list byte) (l : Z) :
  be_decode (common.LeftPadBytes slice l) = be_decode slice.
Proof.
  unfold common.LeftPadBytes. destruct (Z.leb_spec l (len slice)).
  - reflexivity.
  - pose proof (len_nonneg slice).
    rewrite firstn_make by lia. apply be_decode_pad.
Qed.

(** ** EVMWordUint64 *)

Lemma PutUint64_be_bytes (v : Z) : binary.PutUint64 v = big.be_bytes 8 v.
Proof.
  unfold binary.PutUint64. cbn [big.be_bytes app].
  rewrite !Z.shiftr_shiftr by lia. reflexivity.
Qed.

Lemma EVMWordUint64_unfold (v : Z) :
  EVMWordUint64 v = repeat Byte.x00 24 ++ big.be_bytes 8 v.
Proof. unfold EVMWordUint64. rewrite PutUint64_be_bytes. reflexivity. Qed.

Lemma len_EVMWordUint64 (v : Z) : len (EVMWordUint64 v) = 32.
Proof. reflexivity. Qed.

Lemma be_decode_EVMWordUint64 (v : Z) :
  be_decode (EVMWordUint64 v) = v mod 2 ^ 64.
Proof.
  rewrite EVMWordUint64_unfold, be_decode_pad, be_decode_be_bytes.
  reflexivity.
Qed.

(** C7. For every 64-bit unsigned integer [u], [EVMWordUint64 u] is a byte
    array of length exactly 32 whose high 24 bytes are zero and whose low 8
    bytes are [u] in big-endian order (byte [24 + i] is bits
    [8 * (7 - i) .. 8 * (7 - i) + 7] of [u]), so that the big-endian value of
    the whole word is [u].  The function has no error result: it is total. *)
Theorem EVMWordUint64_word (u : Z) :
  0 <= u < 2 ^ 64 ->
  List.length (EVMWordUint64 u) = 32%nat
  /\ firstn 24 (EVMWordUint64 u) = repeat Byte.x00 24
  /\ List.length (skipn 24 (EVMWordUint64 u)) = 8%nat
  /\ (forall i : nat, (i < 8)%nat ->
        byte.unsigned (nth (24 + i) (EVMWordUint64 u) Byte.x00)
        = (u / 256 ^ Z.of_nat (7 - i)) mod 256)
  /\ be_decode (skipn 24 (EVMWordUint64 u)) = u
  /\ be_decode (EVMWordUint64 u) = u.
Proof.
  intro Hu.
  assert (Hlow : skipn 24 (EVMWordUint64 u) = big.be_bytes 8 u)
    by (rewrite EVMWordUint64_unfold; reflexivity).
  refine (conj _ (conj _ (conj _ (conj _ (conj _ _))))).
  - reflexivity.
  - reflexivity.
  - rewrite Hlow. apply be_bytes_length.
  - intros i Hi.
    change (EVMWordUint64 u) with (repeat Byte.x00 24 ++ binary.PutUint64 u).
    unfold binary.PutUint64.
    do 8 (destruct i as [|i]; [ cbn [Nat.add nth repeat app];
                                rewrite byte.unsigned_of_Z; unfold byte.wrap;
                                rewrite ?Z.shiftr_div_pow2 by lia;
                                rewrite ?Z.div_1_r; reflexivity | ]).
    lia.
  - rewrite Hlow, be_decode_be_bytes. apply Z.mod_small.
    change (256 ^ Z.of_nat 8) with (2 ^ 64). exact Hu.
  - rewrite be_decode_EVMWordUint64. apply Z.mod_small. exact Hu.
Qed.

Lemma EVMWordUint64_word_witness :
  0 <= 2 ^ 64 - 1 < 2 ^ 64
  /\ EVMWordUint64 (2 ^ 64 - 1)
     = repeat Byte.x00 24 ++ repeat Byte.xff 8
  /\ be_decode (EVMWordUint64 (2 ^ 64 - 1)) = 2 ^ 64 - 1.
Proof.
  assert (H : 0 <= 2 ^ 64 - 1 < 2 ^ 64) by (vm_compute; split; congruence).
  split; [exact H|]. split; [vm_compute; reflexivity|].
  exact (proj2 (proj2 (proj2 (proj2 (proj2 (EVMWordUint64_word _ H)))))).
Defined.

(** ** The range constants *)

Lemma MaxUint256_value : MaxUint256 = 2 ^ 256 - 1.
Proof. reflexivity. Qed.

Lemma MaxInt256_value : MaxInt256 = 2 ^ 255 - 1.
Proof. reflexivity. Qed.

Lemma MinInt256_value : MinInt256 = - (2 ^ 255 - 1).
Proof. reflexivity. Qed.

(** ** EVMWordBigInt *)

Lemma Sign_neg (v : Z) : (big.Sign v =? -1) = (v <? 0).
Proof.
  unfold big.Sign. destruct (Z.ltb_spec v 0), (Z.eqb_spec (Z.sgn v) (-1)); lia.
Qed.

Lemma EVMWordBigInt_negative (v : Z) :
  v < 0 -> EVMWordBigInt v = ([], Some ErrNegative).
Proof.
  intro H. unfold EVMWordBigInt. rewrite Sign_neg.
  destruct (Z.ltb_spec v 0); [reflexivity | lia].
Qed.

Lemma EVMWordBigInt_fits (v : Z) :
  0 <= v <= MaxUint256 ->
  len (big.Bytes v) <= 32
  /\ EVMWordBigInt v = (common.LeftPadBytes (big.Bytes v) 32, None).
Proof.
  rewrite MaxUint256_value. intro H.
  assert (Hlen : len (big.Bytes v) <= 32)
    by (apply len_Bytes_le; [lia | change (8 * 32) with 256; lia]).
  split; [exact Hlen|].
  unfold EVMWordBigInt. rewrite Sign_neg.
  destruct (Z.ltb_spec v 0); [lia|].
  change EVMWordByteLen with 32.
  destruct (Z.gtb_spec (len (big.Bytes v)) 32); [lia | reflexivity].
Qed.

Lemma EVMWordBigInt_roundtrip (v : Z) :
  0 <= v <= MaxUint256 ->
  EVMWordBigInt v
  = (repeat Byte.x00 (Z.to_nat (32 - len (big.Bytes v))) ++ big.Bytes v, None)
  /\ len (big.Bytes v) <= 32
  /\ be_decode (big.Bytes v) = v
  /\ List.length (fst (EVMWordBigInt v)) = 32%nat
  /\ be_decode (fst (EVMWordBigInt v)) = v.
Proof.
  intro H. destruct (EVMWordBigInt_fits v H) as [Hlen Heq].
  assert (Hdec : be_decode (big.Bytes v) = v)
    by (rewrite be_decode_Bytes; lia).
  rewrite Heq. cbn [fst].
  refine (conj _ (conj Hlen (conj Hdec (conj _ _)))).
  - rewrite LeftPadBytes_fits by exact Hlen. reflexivity.
  - pose proof (len_LeftPadBytes (big.Bytes v) 32 Hlen) as Hl.
    unfold len in Hl. lia.
  - rewrite be_decode_LeftPadBytes. exact Hdec.
Qed.

(** C4. For every integer [v] with [0 <= v <= MaxUint256], [EVMWordBigInt]
    returns, with a nil error, a word of exactly 32 bytes that is the
    big-endian magnitude of [v] ([v.Bytes()]) preceded by zero bytes, so its
    big-endian value is [v]; for [v < 0] it returns the error "Uint256 cannot
    be negative" and for [v = MaxUint256 + 1] the overflow error. *)
Theorem EVMWordBigInt_word (v : Z) :
  (0 <= v <= MaxUint256 ->
     EVMWordBigInt v
     = (repeat Byte.x00 (Z.to_nat (32 - len (big.Bytes v))) ++ big.Bytes v, None)
     /\ len (big.Bytes v) <= 32
     /\ be_decode (big.Bytes v) = v
     /\ List.length (fst (EVMWordBigInt v)) = 32%nat
     /\ be_decode (fst (EVMWordBigInt v)) = v)
  /\ (v < 0 -> EVMWordBigInt v = ([], Some ErrNegative))
  /\ (v = MaxUint256 + 1 -> EVMWordBigInt v = ([], Some (ErrOverflow v))).
Proof.
  split; [|split].
  - apply EVMWordBigInt_roundtrip.
  - apply EVMWordBigInt_negative.
  - intros ->. vm_compute. reflexivity.
Qed.

Lemma EVMWordBigInt_word_witness :
  0 <= 26 <= MaxUint256
  /\ EVMWordBigInt 26 = (repeat Byte.x00 31 ++ [Byte.x1a], None)
  /\ be_decode (fst (EVMWordBigInt 26)) = 26.
Proof.
  assert (H : 0 <= 26 <= MaxUint256) by (vm_compute; split; congruence).
  split; [exact H|].
  destruct (proj1 (EVMWordBigInt_word 26) H) as (Heq & _ & _ & _ & Hdec).
  split; [exact Heq | exact Hdec].
Defined.

(** ** EVMWordSignedBigInt *)

Lemma EVMWordSignedBigInt_overflow (v : Z) :
  2 ^ 255 <= Z.abs v ->
  EVMWordSignedBigInt v = ([], Some (ErrOverflowSigned v)).
Proof.
  intro H. unfold EVMWordSignedBigInt. change (8 * EVMWordByteLen - 1) with 255.
  destruct (Z.gtb_spec (big.BitLen v) 255) as [Hgt|Hle]; [reflexivity|].
  apply BitLen_le_iff in Hle; lia.
Qed.

Lemma EVMWordSignedBigInt_fits (v : Z) :
  Z.abs v < 2 ^ 255 ->
  EVMWordSignedBigInt v
  = (common.LeftPadBytes
       (big.Bytes (if v <? 0 then v + MaxUint256 + 1 else v)) 32, None).
Proof.
  intro H. unfold EVMWordSignedBigInt. change (8 * EVMWordByteLen - 1) with 255.
  destruct (Z.gtb_spec (big.BitLen v) 255) as [Hgt|Hle].
  - assert (big.BitLen v <= 255) by (apply BitLen_le_iff; lia). lia.
  - rewrite Sign_neg. destruct (v <? 0); reflexivity.
Qed.

Lemma EVMWordSignedBigInt_roundtrip (v : Z) :
  Z.abs v < 2 ^ 255 ->
  exists word,
    EVMWordSignedBigInt v = (word, None)
    /\ List.length word = 32%nat
    /\ decode_int256 word = v.
Proof.
  intro H. rewrite (EVMWordSignedBigInt_fits v H).
  set (u := if v <? 0 then v + MaxUint256 + 1 else v).
  assert (Hu : 0 <= u < 2 ^ 256 /\ (if u <? 2 ^ 255 then u else u - 2 ^ 256) = v).
  { subst u. rewrite MaxUint256_value.
    assert (E : 2 ^ 256 = 2 * 2 ^ 255) by reflexivity.
    destruct (Z.ltb_spec v 0).
    - destruct (Z.ltb_spec (v + (2 ^ 256 - 1) + 1) (2 ^ 255)); lia.
    - destruct (Z.ltb_spec v (2 ^ 255)); lia. }
  destruct Hu as [Hr Hv].
  assert (Hlen : len (big.Bytes u) <= 32)
    by (apply len_Bytes_le; [lia | change (8 * 32) with 256; lia]).
  eexists. split; [reflexivity|]. split.
  - pose proof (len_LeftPadBytes (big.Bytes u) 32 Hlen) as Hl.
    unfold len in Hl. lia.
  - unfold decode_int256.
    rewrite be_decode_LeftPadBytes, be_decode_Bytes, Z.abs_eq by lia.
    exact Hv.
Qed.

(** X4. For every integer [v] with [-(2^255 - 1) <= v <= 2^255 - 1], that is
    from [MinInt256] to [MaxInt256] as [init] computes them,
    [EVMWordSignedBigInt] succeeds and returns a 32-byte word whose 256-bit
    two's-complement value is [v]; for every [v] outside that range, in
    particular [MaxInt256 + 1 = 2^255], [MinInt256 - 1 = -2^255] and
    [-2^255 - 1], it returns the overflow error. *)
Theorem EVMWordSignedBigInt_word (v : Z) :
  (- (2 ^ 255 - 1) <= v <= 2 ^ 255 - 1 ->
     exists word,
       EVMWordSignedBigInt v = (word, None)
       /\ List.length word = 32%nat
       /\ decode_int256 word = v)
  /\ (v < - (2 ^ 255 - 1) \/ 2 ^ 255 - 1 < v ->
      EVMWordSignedBigInt v = ([], Some (ErrOverflowSigned v)))
  /\ (v = MaxInt256 + 1 \/ v = MinInt256 - 1 \/ v = - 2 ^ 255 - 1 ->
      EVMWordSignedBigInt v = ([], Some (ErrOverflowSigned v))).
Proof.
  split; [|split].
  - intro H. apply EVMWordSignedBigInt_roundtrip. lia.
  - intro H. apply EVMWordSignedBigInt_overflow. lia.
  - rewrite MaxInt256_value, MinInt256_value. intro H.
    apply EVMWordSignedBigInt_overflow. lia.
Qed.

(** The spec's example: [-5] encodes to thirty-one [0xff] bytes and [0xfb]. *)
Lemma EVMWordSignedBigInt_word_witness :
  - (2 ^ 255 - 1) <= -5 <= 2 ^ 255 - 1
  /\ exists word,
       EVMWordSignedBigInt (-5) = (word, None)
       /\ List.length word = 32%nat
       /\ decode_int256 word = -5.
Proof.
  assert (H : - (2 ^ 255 - 1) <= -5 <= 2 ^ 255 - 1)
    by (vm_compute; split; congruence).
  split; [exact H|]. exact (proj1 (EVMWordSignedBigInt_word (-5)) H).
Defined.

(** C1. The least 256-bit two's-complement integer, [-2^255], lies in the
    range of a signed word, and [EVMWordSignedBigInt] refuses it as an
    overflow: its magnitude has 256 bits, and the guard compares the bit
    length of the magnitude with 255. The branch for negative values, had the
    guard let the value through, would have produced the word [0x80 00 .. 00],
    whose two's-complement value is [-2^255]. *)
Theorem EVMWordSignedBigInt_refuses_min :
  (- 2 ^ 255 <= - 2 ^ 255 <= 2 ^ 255 - 1)
  /\ big.BitLen (- 2 ^ 255) = 256
  /\ EVMWordSignedBigInt (- 2 ^ 255)
     = ([], Some (ErrOverflowSigned (- 2 ^ 255)))
  /\ common.LeftPadBytes (big.Bytes (- 2 ^ 255 + MaxUint256 + 1)) EVMWordByteLen
     = Byte.x80 :: repeat Byte.x00 31
  /\ decode_int256 (Byte.x80 :: repeat Byte.x00 31) = - 2 ^ 255.
Proof.
  refine (conj _ (conj _ (conj _ (conj _ _)))); vm_compute;
    first [reflexivity | split; congruence].
Qed.

(** C2. The range constants as [init] computes them (it assigns them once,
    and nothing in the package assigns them again): [MaxUint256 = 2^256 - 1],
    [MaxInt256 = 2^255 - 1], and [MinInt256 = -MaxInt256 = -(2^255 - 1)],
    which is not [-2^255], the smallest number a two's-complement word
    represents. *)
Theorem range_constants :
  MaxUint256 = 2 ^ 256 - 1
  /\ MaxInt256 = 2 ^ 255 - 1
  /\ MinInt256 = - MaxInt256
  /\ MinInt256 = - (2 ^ 255 - 1)
  /\ MinInt256 <> - 2 ^ 255.
Proof.
  refine (conj eq_refl (conj eq_refl (conj eq_refl (conj eq_refl _)))).
  vm_compute. discriminate.
Qed.

(** X2. [EVMWordSignedBigInt] returns a nil error exactly for the integers
    from [MinInt256] to [MaxInt256]: the two constants are the bounds of what
    the signed encoder accepts. *)
Theorem EVMWordSignedBigInt_accepts_iff (v : Z) :
  snd (EVMWordSignedBigInt v) = None <-> MinInt256 <= v <= MaxInt256.
Proof.
  rewrite MaxInt256_value, MinInt256_value. split.
  - intro H. destruct (Z_lt_le_dec (Z.abs v) (2 ^ 255)) as [Hlt|Hge]; [lia|].
    rewrite (EVMWordSignedBigInt_overflow v Hge) in H. discriminate.
  - intro H. rewrite EVMWordSignedBigInt_fits by lia. reflexivity.
Qed.

(** X3. [EVMWordBigInt] returns a nil error exactly for the integers from
    [0] to [MaxUint256]. *)
Theorem EVMWordBigInt_accepts_iff (v : Z) :
  snd (EVMWordBigInt v) = None <-> 0 <= v <= MaxUint256.
Proof.
  split.
  - intro H. destruct (Z_lt_le_dec v 0) as [Hneg|Hpos].
    + rewrite (EVMWordBigInt_negative v Hneg) in H. discriminate.
    + split; [exact Hpos|]. rewrite MaxUint256_value.
      unfold EVMWordBigInt in H. rewrite Sign_neg in H.
      destruct (Z.ltb_spec v 0); [lia|]. change EVMWordByteLen with 32 in H.
      destruct (Z.gtb_spec (len (big.Bytes v)) 32) as [Hgt|Hle];
        [discriminate|].
      rewrite len_Bytes in Hle.
      assert (Hb : big.BitLen v <= 256).
      { pose proof (Z.div_mod (big.BitLen v + 7) 8).
        pose proof (Z.mod_pos_bound (big.BitLen v + 7) 8). lia. }
      apply BitLen_le_iff in Hb; lia.
  - intro H. rewrite (proj2 (EVMWordBigInt_fits v H)). reflexivity.
Qed.

(** ** Conversions to 64-bit integers *)

Lemma to_int64_range (z : Z) : MinInt64 <= to_int64 z <= MaxInt64.
Proof.
  unfold to_int64, MinInt64, MaxInt64.
  pose proof (Z.mod_pos_bound (z + 2 ^ 63) (2 ^ 64) eq_refl).
  assert (2 ^ 64 = 2 * 2 ^ 63) by reflexivity. lia.
Qed.

Lemma to_uint64_range (z : Z) : 0 <= to_uint64 z < 2 ^ 64.
Proof. apply Z.mod_pos_bound. reflexivity. Qed.

Lemma to_uint64_small (z : Z) : 0 <= z < 2 ^ 64 -> to_uint64 z = z.
Proof. apply Z.mod_small. Qed.

Lemma float_to_int64_range (A : float64.Arch) (f : float) :
  MinInt64 <= float64.to_int64 A f <= MaxInt64.
Proof.
  unfold float64.to_int64.
  destruct (float64.trunc f) as [z|]; [|apply to_int64_range].
  destruct (Z.leb_spec MinInt64 z), (Z.leb_spec z MaxInt64); cbn [andb];
    first [apply to_int64_range | lia].
Qed.

Lemma float_to_uint64_range (A : float64.Arch) (f : float) :
  0 <= float64.to_uint64 A f < 2 ^ 64.
Proof.
  unfold float64.to_uint64.
  destruct (float64.trunc f) as [z|]; [|apply to_uint64_range].
  destruct (Z.leb_spec 0 z), (Z.ltb_spec z (2 ^ 64)); cbn [andb];
    first [apply to_uint64_range | lia].
Qed.

(** A 64-bit signed integer has a magnitude of at most 64 bits. *)
Lemma BitLen_int64 (i : Z) : MinInt64 <= i <= MaxInt64 -> big.BitLen i <= 64.
Proof.
  unfold MinInt64, MaxInt64. intro H. apply BitLen_le_iff; [lia|].
  assert (2 ^ 64 = 2 * 2 ^ 63) by reflexivity. lia.
Qed.

(** [f != 0] holds unless [f] is one of the two zeros. *)
Lemma neq0_spec (f : float) : float64.neq0 f = negb (float64.is_zero f).
Proof.
  unfold float64.neq0, float64.is_zero. rewrite FloatAxioms.eqb_spec.
  change (Prim2SF PrimFloat.zero) with (S754_zero false).
  destruct (Prim2SF f) as [s|s| |s m e]; try destruct s; reflexivity.
Qed.

(** ** Strings and their bytes *)

Lemma length_list_byte_of_string (s : string) :
  List.length (list_byte_of_string s) = String.length s.
Proof.
  unfold list_byte_of_string.
  induction s as [|c s IH]; [reflexivity|].
  cbn [list_ascii_of_string List.map String.length List.length].
  now rewrite IH.
Qed.

Lemma strlen_pos_iff (s : string) : (strlen s >? 0) = negb (String.eqb s "").
Proof. destruct s as [|c s]; [reflexivity|]. unfold strlen. cbn [String.length].
  destruct (Z.gtb_spec (Z.of_nat (S (String.length s))) 0); [reflexivity|lia].
Qed.

(** ** ConcatBytes never fails *)

Lemma ConcatBytes_from_concat (buffer : list byte) (bufs : list (list byte)) :
  ConcatBytes_from buffer bufs = (buffer ++ List.concat bufs, None).
Proof.
  revert buffer. induction bufs as [|b rest IH]; intro buffer;
    cbn [ConcatBytes_from List.concat Buffer_Write].
  - now rewrite app_nil_r.
  - rewrite IH, app_assoc. reflexivity.
Qed.

Lemma ConcatBytes_concat (bufs : list (list byte)) :
  ConcatBytes bufs = (List.concat bufs, None).
Proof. apply ConcatBytes_from_concat. Qed.

(** ** HasHexPrefix *)

(** C8. [HasHexPrefix s] is true if and only if [s] has at least two
    characters and the first two are exactly the lowercase ["0x"], that is [s]
    is ["0x"] followed by anything; so [HasHexPrefix "0xFF" = true] and
    [HasHexPrefix "0XFF" = false]. *)
Theorem HasHexPrefix_iff :
  (forall s : string,
      HasHexPrefix s = true
      <-> (2 <= String.length s)%nat
          /\ String.get 0 s = Some "0"%char
          /\ String.get 1 s = Some "x"%char)
  /\ (forall s : string,
         HasHexPrefix s = true <-> exists rest, s = ("0x" ++ rest)%string)
  /\ HasHexPrefix "0xFF" = true
  /\ HasHexPrefix "0XFF" = false.
Proof.
  assert (Hcons : forall c0 c1 r,
             HasHexPrefix (String.String c0 (String.String c1 r))
             = Ascii.eqb c0 "0" && Ascii.eqb c1 "x").
  { intros c0 c1 r. unfold HasHexPrefix, strlen.
    cbn [String.length String.get].
    destruct (Z.leb_spec 2 (Z.of_nat (S (S (String.length r))))); [|lia].
    reflexivity. }
  refine (conj _ (conj _ (conj eq_refl eq_refl))).
  - intros [|c0 [|c1 r]].
    + split; [discriminate | cbn; lia].
    + split; [discriminate | cbn; lia].
    + rewrite Hcons, andb_true_iff, !Ascii.eqb_eq. cbn [String.length String.get].
      split.
      * intros [-> ->]. repeat split. lia.
      * intros (_ & H0 & H1). split; congruence.
  - intros [|c0 [|c1 r]].
    + split; [discriminate | intros [rest H]; discriminate].
    + split; [discriminate | intros [rest H]; discriminate].
    + rewrite Hcons, andb_true_iff, !Ascii.eqb_eq. split.
      * intros [-> ->]. exists r. reflexivity.
      * intros [rest H]. cbn in H. split; congruence.
Qed.

(** ** EVMTranscodeBool *)

(** C6. [EVMTranscodeBool] returns the 32-byte word of value 1 for a number
    other than zero, for a non-empty string and for [true]; the word of value
    0 for a number that is zero, for the empty string, for [false] and for
    [null]; and the error "unsupported encoding for value" for the remaining
    kind, [JSON] (an object or an array). *)
Theorem EVMTranscodeBool_cases (value : gjson.Result) :
  (gjson.Typ value = gjson.Number /\ float64.is_zero (gjson.Num value) = false
   \/ gjson.Typ value = gjson.String /\ gjson.Str value <> ""%string
   \/ gjson.Typ value = gjson.True ->
   EVMTranscodeBool value = (EVMWordUint64 1, None))
  /\ (gjson.Typ value = gjson.Number /\ float64.is_zero (gjson.Num value) = true
      \/ gjson.Typ value = gjson.String /\ gjson.Str value = ""%string
      \/ gjson.Typ value = gjson.False
      \/ gjson.Typ value = gjson.Null ->
      EVMTranscodeBool value = (EVMWordUint64 0, None))
  /\ (gjson.Typ value = gjson.JSON ->
      EVMTranscodeBool value = ([], Some (ErrUnsupportedEncoding gjson.JSON)))
  /\ List.length (EVMWordUint64 1) = 32%nat /\ be_decode (EVMWordUint64 1) = 1
  /\ List.length (EVMWordUint64 0) = 32%nat /\ be_decode (EVMWordUint64 0) = 0.
Proof.
  destruct value as [t s n]. unfold EVMTranscodeBool.
  cbn [gjson.Typ gjson.Str gjson.Num]. rewrite neq0_spec.
  refine (conj _ (conj _ (conj _
            (conj eq_refl (conj eq_refl (conj eq_refl eq_refl)))))).
  - intros [[-> ->] | [[-> Hs] | ->]]; [reflexivity | | reflexivity].
    rewrite strlen_pos_iff. destruct (String.eqb_spec s ""); [contradiction|].
    reflexivity.
  - intros [[-> ->] | [[-> ->] | [-> | ->]]]; reflexivity.
  - intros ->. reflexivity.
Qed.

(** The spec's examples for [5], ["x"], [true], [0], [""], [false] and
    [null]. *)
Lemma EVMTranscodeBool_cases_witness :
  EVMTranscodeBool (gjson.mkResult gjson.Number "" 5) = (EVMWordUint64 1, None)
  /\ EVMTranscodeBool (gjson.mkResult gjson.String "x" 0) = (EVMWordUint64 1, None)
  /\ EVMTranscodeBool (gjson.mkResult gjson.True "" 0) = (EVMWordUint64 1, None)
  /\ EVMTranscodeBool (gjson.mkResult gjson.Number "" 0) = (EVMWordUint64 0, None)
  /\ EVMTranscodeBool (gjson.mkResult gjson.String "" 0) = (EVMWordUint64 0, None)
  /\ EVMTranscodeBool (gjson.mkResult gjson.False "" 0) = (EVMWordUint64 0, None)
  /\ EVMTranscodeBool (gjson.mkResult gjson.Null "" 0) = (EVMWordUint64 0, None).
Proof.
  repeat apply conj.
  - apply (proj1 (EVMTranscodeBool_cases _)). left. split; reflexivity.
  - apply (proj1 (EVMTranscodeBool_cases _)). right; left.
    split; [reflexivity | discriminate].
  - apply (proj1 (EVMTranscodeBool_cases _)). right; right. reflexivity.
  - apply (proj1 (proj2 (EVMTranscodeBool_cases _))). left. split; reflexivity.
  - apply (proj1 (proj2 (EVMTranscodeBool_cases _))). right; left.
    split; reflexivity.
  - apply (proj1 (proj2 (EVMTranscodeBool_cases _))). right; right; left.
    reflexivity.
  - apply (proj1 (proj2 (EVMTranscodeBool_cases _))). right; right; right.
    reflexivity.
Defined.

(** ** EVMTranscodeBytes *)

Lemma EVMTranscodeBytes_String_branch (arch : float64.Arch) (value : gjson.Result) :
  gjson.Typ value = gjson.String ->
  EVMTranscodeBytes arch value
  = (EVMWordUint64 64
       ++ EVMWordUint64 (to_uint64 (strlen (gjson.Str value)))
       ++ list_byte_of_string (gjson.Str value)
       ++ repeat Byte.x00 (Z.to_nat (32 - strlen (gjson.Str value) mod 32)),
     None).
Proof.
  intro Ht. unfold EVMTranscodeBytes. rewrite Ht, ConcatBytes_concat.
  cbn [List.concat]. rewrite app_nil_r.
  unfold len, strlen, make. rewrite length_list_byte_of_string.
  change EVMWordByteLen with 32.
  rewrite Z.rem_mod_nonneg by lia. reflexivity.
Qed.

(** C5. For every string [s] (of a length that fits Go's [int]),
    [EVMTranscodeBytes] succeeds and returns exactly: the 32-byte word of
    value 64, then the 32-byte word whose value is the byte count of [s],
    then the bytes of [s], then [32 - byteCount mod 32] zero bytes, which is
    a whole extra word of 32 zero bytes when the count is a multiple of 32
    (0 included). *)
Theorem EVMTranscodeBytes_string_layout
  (arch : float64.Arch) (value : gjson.Result) :
  gjson.Typ value = gjson.String ->
  strlen (gjson.Str value) <= MaxInt64 ->
  exists offset length padding : list byte,
    EVMTranscodeBytes arch value
    = (offset ++ length ++ list_byte_of_string (gjson.Str value) ++ padding,
       None)
    /\ List.length offset = 32%nat /\ be_decode offset = 64
    /\ List.length length = 32%nat
    /\ be_decode length = strlen (gjson.Str value)
    /\ len (list_byte_of_string (gjson.Str value)) = strlen (gjson.Str value)
    /\ padding
       = repeat Byte.x00 (Z.to_nat (32 - strlen (gjson.Str value) mod 32))
    /\ len padding = 32 - strlen (gjson.Str value) mod 32
    /\ (strlen (gjson.Str value) mod 32 = 0 -> padding = repeat Byte.x00 32).
Proof.
  intros Ht Hlen.
  assert (Hn : 0 <= strlen (gjson.Str value) < 2 ^ 64).
  { unfold strlen, MaxInt64 in *. split; [lia|].
    apply Z.le_lt_trans with (2 ^ 63 - 1); [exact Hlen | reflexivity]. }
  pose proof (Z.mod_pos_bound (strlen (gjson.Str value)) 32 eq_refl) as Hm.
  do 3 eexists. split; [apply EVMTranscodeBytes_String_branch; exact Ht|].
  refine (conj eq_refl (conj eq_refl (conj eq_refl (conj _ (conj _
          (conj eq_refl (conj _ _))))))).
  - rewrite be_decode_EVMWordUint64. unfold to_uint64.
    rewrite Z.mod_mod by discriminate. apply Z.mod_small. exact Hn.
  - unfold len, strlen. now rewrite length_list_byte_of_string.
  - unfold len. rewrite repeat_length. lia.
  - intros ->. reflexivity.
Qed.

(** The spec's example: ["ab"] gives 96 bytes, with a length word of value 2,
    the two content bytes and 30 bytes of padding. *)
Lemma EVMTranscodeBytes_string_layout_witness :
  gjson.Typ (gjson.mkResult gjson.String "ab" 0) = gjson.String
  /\ strlen "ab" <= MaxInt64
  /\ (exists offset length padding : list byte,
         EVMTranscodeBytes float64.saturating (gjson.mkResult gjson.String "ab" 0)
         = (offset ++ length ++ [Byte.x61; Byte.x62] ++ padding, None)
         /\ be_decode offset = 64
         /\ be_decode length = 2
         /\ padding = repeat Byte.x00 30)
  /\ List.length
       (fst (EVMTranscodeBytes float64.saturating
               (gjson.mkResult gjson.String "ab" 0))) = 96%nat.
Proof.
  assert (Ht : gjson.Typ (gjson.mkResult gjson.String "ab" 0) = gjson.String)
    by reflexivity.
  assert (Hl : strlen (gjson.Str (gjson.mkResult gjson.String "ab" 0)) <= MaxInt64)
    by (vm_compute; congruence).
  refine (conj Ht (conj Hl (conj _ _))); [|vm_compute; reflexivity].
  destruct (EVMTranscodeBytes_string_layout float64.saturating _ Ht Hl)
    as (offset & length & padding & Heq & _ & Ho & _ & Hlen & _ & Hp & _).
  exists offset, length, padding. repeat split; assumption.
Defined.

Lemma EVMWordSignedBigInt_int64 (i : Z) :
  MinInt64 <= i <= MaxInt64 ->
  exists word,
    EVMWordSignedBigInt i = (word, None) /\ List.length word = 32%nat.
Proof.
  intro H. pose proof (BitLen_int64 i H) as Hb.
  assert (Habs : Z.abs i < 2 ^ 255).
  { apply BitLen_le_iff; lia. }
  destruct (EVMWordSignedBigInt_roundtrip i Habs) as (word & Heq & Hl & _).
  exists word. split; assumption.
Qed.


Lemma EVMTranscodeBytes_Number_branch (arch : float64.Arch) (value : gjson.Result) :
  gjson.Typ value = gjson.Number ->
  exists word,
    EVMWordSignedBigInt (float64.to_int64 arch (gjson.Num value))
    = (word, None)
    /\ List.length word = 32%nat
    /\ EVMTranscodeBytes arch value
       = (EVMWordUint64 64 ++ EVMWordUint64 32 ++ word, None).
Proof.
  intro Ht.
  pose proof (float_to_int64_range arch (gjson.Num value)) as Hr.
  destruct (EVMWordSignedBigInt_int64 _ Hr) as (word & Heq & Hl).
  exists word. split; [exact Heq|]. split; [exact Hl|].
  unfold EVMTranscodeBytes. rewrite Ht, Heq, ConcatBytes_concat.
  cbn [List.concat]. rewrite app_nil_r. reflexivity.
Qed.




(** C10. Whenever [EVMTranscodeBytes] returns a nil error, its output has a
    length that is a multiple of 32 and at least 96 (three words); the empty
    string gives exactly 96 bytes. *)
Theorem EVMTranscodeBytes_length :
  (forall (arch : float64.Arch) (value : gjson.Result),
      snd (EVMTranscodeBytes arch value) = None ->
      exists k : Z,
        len (fst (EVMTranscodeBytes arch value)) = 32 * k /\ 3 <= k)
  /\ (forall (arch : float64.Arch) (num : float),
         EVMTranscodeBytes arch (gjson.mkResult gjson.String "" num)
         = (EVMWordUint64 64 ++ EVMWordUint64 0 ++ repeat Byte.x00 32, None)
         /\ len (fst (EVMTranscodeBytes arch
                        (gjson.mkResult gjson.String "" num))) = 96).
Proof.
  split.
  - intros arch value Hok.
    destruct (gjson.Typ value) eqn:Ht.
    + unfold EVMTranscodeBytes in Hok. rewrite Ht in Hok. discriminate.
    + exists 3. unfold EVMTranscodeBytes. rewrite Ht. split; [reflexivity|lia].
    + destruct (EVMTranscodeBytes_Number_branch arch value Ht)
        as (word & _ & Hl & Heq).
      exists 3. rewrite Heq. cbn [fst]. rewrite !len_app, !len_EVMWordUint64.
      unfold len. rewrite Hl. split; [reflexivity|lia].
    + rewrite (EVMTranscodeBytes_String_branch arch value Ht). cbn [fst].
      set (n := strlen (gjson.Str value)).
      assert (Hn : 0 <= n) by (subst n; unfold strlen; lia).
      pose proof (Z.mod_pos_bound n 32 eq_refl) as Hm.
      pose proof (Z.div_mod n 32 ltac:(discriminate)) as Hd.
      pose proof (Z.div_pos n 32 Hn eq_refl) as Hq.
      exists (3 + n / 32).
      rewrite !len_app, !len_EVMWordUint64.
      replace (len (list_byte_of_string (gjson.Str value))) with n
        by (unfold len, n, strlen; now rewrite length_list_byte_of_string).
      unfold len at 1. rewrite repeat_length. lia.
    + exists 3. unfold EVMTranscodeBytes. rewrite Ht. split; [reflexivity|lia].
    + unfold EVMTranscodeBytes in Hok. rewrite Ht in Hok. discriminate.
  - intros arch num. split; reflexivity.
Qed.

Lemma EVMTranscodeBytes_length_witness :
  snd (EVMTranscodeBytes float64.saturating
         (gjson.mkResult gjson.String "abcdefghijklmnopqrstuvwxyzABCDEF" 0))
  = None
  /\ exists k : Z,
       len (fst (EVMTranscodeBytes float64.saturating
                   (gjson.mkResult gjson.String
                      "abcdefghijklmnopqrstuvwxyzABCDEF" 0))) = 32 * k
       /\ 3 <= k.
Proof.
  assert (H : snd (EVMTranscodeBytes float64.saturating
                     (gjson.mkResult gjson.String
                        "abcdefghijklmnopqrstuvwxyzABCDEF" 0)) = None)
    by reflexivity.
  split; [exact H|].
  exact (proj1 EVMTranscodeBytes_length float64.saturating _ H).
Defined.

(** ** EVMTranscodeUint256 *)

Lemma EVMWordBigInt_uint64 (u : Z) :
  0 <= u < 2 ^ 64 ->
  snd (EVMWordBigInt u) = None
  /\ List.length (fst (EVMWordBigInt u)) = 32%nat
  /\ be_decode (fst (EVMWordBigInt u)) = u.
Proof.
  intro H.
  assert (Hr : 0 <= u <= MaxUint256).
  { rewrite MaxUint256_value. split; [lia|].
    apply Z.le_trans with (2 ^ 64); [lia | vm_compute; discriminate]. }
  destruct (EVMWordBigInt_roundtrip u Hr) as (Heq & _ & _ & Hl & Hd).
  rewrite Heq at 1. repeat split; assumption.
Qed.

Lemma EVMTranscodeUint256_Number_branch (arch : float64.Arch) (value : gjson.Result) :
  gjson.Typ value = gjson.Number ->
  EVMTranscodeUint256 arch value
  = EVMWordBigInt (float64.to_uint64 arch (gjson.Num value))
  /\ 0 <= float64.to_uint64 arch (gjson.Num value) < 2 ^ 64
  /\ snd (EVMTranscodeUint256 arch value) = None
  /\ List.length (fst (EVMTranscodeUint256 arch value)) = 32%nat
  /\ be_decode (fst (EVMTranscodeUint256 arch value))
     = float64.to_uint64 arch (gjson.Num value).
Proof.
  intro Ht.
  assert (E : EVMTranscodeUint256 arch value
              = EVMWordBigInt (float64.to_uint64 arch (gjson.Num value)))
    by (unfold EVMTranscodeUint256; rewrite Ht; reflexivity).
  pose proof (float_to_uint64_range arch (gjson.Num value)) as Hr.
  rewrite E. split; [reflexivity|]. split; [exact Hr|].
  apply EVMWordBigInt_uint64. exact Hr.
Qed.

(** C3. The decimal string ["-1"], like any string that parses to a negative
    integer, is not checked by [EVMTranscodeUint256] itself and comes back
    from [EVMWordBigInt] as the error "Uint256 cannot be negative", as the
    claim says. The JSON number [-1] does not: the branch for numbers
    converts to a [uint64] before the encoder and its sign check are reached,
    so whatever the implementation makes of [uint64(-1.0)] the call returns a
    nil error and the 32-byte word of that [uint64], and no number gives the
    error for a negative value. *)
Theorem EVMTranscodeUint256_negative (arch : float64.Arch) :
  (forall num : float,
      EVMTranscodeUint256 arch (gjson.mkResult gjson.String "-1" num)
      = ([], Some ErrNegative))
  /\ (forall (value : gjson.Result) (v : Z),
         gjson.Typ value = gjson.String ->
         parseString (gjson.Str value) = Some v ->
         v < 0 ->
         EVMTranscodeUint256 arch value = EVMWordBigInt v
         /\ EVMWordBigInt v = ([], Some ErrNegative))
  /\ (exists word : list byte,
         EVMTranscodeUint256 arch (gjson.mkResult gjson.Number "" (-1))
         = (word, None)
         /\ List.length word = 32%nat
         /\ be_decode word
            = to_uint64 (float64.uint64_unrepresentable arch (-1)%float)
         /\ 0 <= be_decode word < 2 ^ 64)
  /\ (forall value : gjson.Result,
         gjson.Typ value = gjson.Number ->
         EVMTranscodeUint256 arch value
         = EVMWordBigInt (float64.to_uint64 arch (gjson.Num value))
         /\ 0 <= float64.to_uint64 arch (gjson.Num value) < 2 ^ 64
         /\ snd (EVMTranscodeUint256 arch value) = None
         /\ List.length (fst (EVMTranscodeUint256 arch value)) = 32%nat
         /\ be_decode (fst (EVMTranscodeUint256 arch value))
            = float64.to_uint64 arch (gjson.Num value)).
Proof.
  refine (conj _ (conj _ (conj _ _))).
  - intro num. reflexivity.
  - intros value v Ht Hp Hv. unfold EVMTranscodeUint256. rewrite Ht, Hp.
    split; [reflexivity | apply EVMWordBigInt_negative; exact Hv].
  - destruct (EVMTranscodeUint256_Number_branch arch
                (gjson.mkResult gjson.Number "" (-1)) eq_refl)
      as (_ & Hr & He & Hl & Hd).
    assert (Hu : float64.to_uint64 arch
                   (gjson.Num (gjson.mkResult gjson.Number "" (-1)))
                 = to_uint64 (float64.uint64_unrepresentable arch (-1)%float))
      by reflexivity.
    exists (fst (EVMTranscodeUint256 arch (gjson.mkResult gjson.Number "" (-1)))).
    rewrite Hd, <- Hu. refine (conj _ (conj Hl (conj eq_refl Hr))).
    rewrite <- He. apply surjective_pairing.
  - apply EVMTranscodeUint256_Number_branch.
Qed.

(** The spec's examples: ["0x1a"] and ["26"] give the word of 26, and the
    string ["-1"] the error. *)
Lemma EVMTranscodeUint256_negative_witness :
  gjson.Typ (gjson.mkResult gjson.String "-1" 0) = gjson.String
  /\ parseString "-1" = Some (-1)
  /\ -1 < 0
  /\ EVMTranscodeUint256 float64.saturating (gjson.mkResult gjson.String "-1" 0)
     = ([], Some ErrNegative)
  /\ EVMTranscodeUint256 float64.saturating (gjson.mkResult gjson.String "0x1a" 0)
     = EVMWordBigInt 26
  /\ EVMTranscodeUint256 float64.saturating (gjson.mkResult gjson.String "26" 0)
     = EVMWordBigInt 26.
Proof.
  assert (Ht : gjson.Typ (gjson.mkResult gjson.String "-1" 0) = gjson.String)
    by reflexivity.
  assert (Hp : parseString (gjson.Str (gjson.mkResult gjson.String "-1" 0))
               = Some (-1)) by reflexivity.
  assert (Hv : -1 < 0) by reflexivity.
  refine (conj Ht (conj Hp (conj Hv (conj _ (conj eq_refl eq_refl))))).
  destruct (proj1 (proj2 (EVMTranscodeUint256_negative float64.saturating))
              _ _ Ht Hp Hv) as [H1 H2].
  rewrite H1. exact H2.
Defined.

(** ** EVMTranscodeInt256 *)

(** The spec's example: the string ["-5"] is encoded as [-5] is, and the low
    byte of the word is [0xfb]. *)
Lemma EVMTranscodeInt256_minus_five (arch : float64.Arch) (num : float) :
  EVMTranscodeInt256 arch (gjson.mkResult gjson.String "-5" num)
  = EVMWordSignedBigInt (-5)
  /\ last (fst (EVMWordSignedBigInt (-5))) Byte.x00 = Byte.xfb.
Proof. split; reflexivity. Qed.

(** * Further properties of the word encoders *)

(** ** Words of the same length with the same value are equal *)

Lemma be_decode_cons (b : byte) (l : list byte) :
  be_decode (b :: l) = byte.unsigned b * 256 ^ len l + be_decode l.
Proof. apply (be_decode_app [b] l). Qed.

Lemma be_decode_inj (l1 l2 : list byte) :
  List.length l1 = List.length l2 ->
  be_decode l1 = be_decode l2 ->
  l1 = l2.
Proof.
  revert l2. induction l1 as [|b1 l1 IH]; intros [|b2 l2] Hlen Hdec;
    try discriminate; [reflexivity|].
  injection Hlen as Hlen. rewrite !be_decode_cons in Hdec.
  assert (Hl : len l2 = len l1) by (unfold len; lia). rewrite Hl in Hdec.
  pose proof (be_decode_range l1) as R1.
  pose proof (be_decode_range l2) as R2. rewrite Hl in R2.
  destruct (Z.div_mod_unique (256 ^ len l1)
              (byte.unsigned b1) (byte.unsigned b2)
              (be_decode l1) (be_decode l2)) as [Hq Hr];
    [left; exact R1 | left; exact R2 | lia |].
  f_equal; [apply byte.unsigned_inj; exact Hq | apply IH; assumption].
Qed.

(** ** ConcatBytes *)

(** X5. [ConcatBytes] never returns an error; its result is the buffers one
    after the other, in order, so its length is the sum of theirs, and
    joining two lists of buffers is joining their results. *)
Theorem ConcatBytes_appends :
  (forall bufs : list (list byte),
      ConcatBytes bufs = (List.concat bufs, None)
      /\ len (fst (ConcatBytes bufs)) = fold_right Z.add 0 (map len bufs))
  /\ (forall a b : list (list byte),
         fst (ConcatBytes (a ++ b))
         = fst (ConcatBytes a) ++ fst (ConcatBytes b)).
Proof.
  split.
  - intro bufs. rewrite ConcatBytes_concat. split; [reflexivity|]. cbn [fst].
    induction bufs as [|x rest IH]; [reflexivity|].
    cbn [List.concat map fold_right]. rewrite len_app, IH. reflexivity.
  - intros a b. rewrite !ConcatBytes_concat. cbn [fst]. apply concat_app.
Qed.

(** ** The three encoders agree where their ranges meet *)

Lemma EVMWordBigInt_is_Uint64 (u : Z) :
  0 <= u < 2 ^ 64 -> EVMWordBigInt u = (EVMWordUint64 u, None).
Proof.
  intro H. destruct (EVMWordBigInt_uint64 u H) as (He & Hl & Hd).
  destruct (EVMWordBigInt u) as [w e]. cbn [fst snd] in *. subst e.
  f_equal. apply be_decode_inj.
  - rewrite Hl. reflexivity.
  - rewrite Hd, be_decode_EVMWordUint64, Z.mod_small by exact H. reflexivity.
Qed.

Lemma EVMWordSignedBigInt_is_unsigned (v : Z) :
  0 <= v <= MaxInt256 -> EVMWordSignedBigInt v = EVMWordBigInt v.
Proof.
  rewrite MaxInt256_value. intro H.
  rewrite EVMWordSignedBigInt_fits by lia.
  destruct (Z.ltb_spec v 0); [lia|].
  symmetry. apply EVMWordBigInt_fits. rewrite MaxUint256_value.
  assert (2 ^ 256 = 2 * 2 ^ 255) by reflexivity. lia.
Qed.

(** X6. For a value from 0 to [MaxInt256] the signed and the unsigned
    encoder return the same thing; from [MaxInt256 + 1] to [MaxUint256] the
    unsigned one still returns a word and the signed one an overflow error;
    and for a value that fits a [uint64] both return the word of
    [EVMWordUint64]. *)
Theorem encoders_agree (v : Z) :
  (0 <= v <= MaxInt256 -> EVMWordSignedBigInt v = EVMWordBigInt v)
  /\ (MaxInt256 < v <= MaxUint256 ->
      snd (EVMWordBigInt v) = None
      /\ EVMWordSignedBigInt v = ([], Some (ErrOverflowSigned v)))
  /\ (0 <= v < 2 ^ 64 ->
      EVMWordBigInt v = (EVMWordUint64 v, None)
      /\ EVMWordSignedBigInt v = (EVMWordUint64 v, None)).
Proof.
  refine (conj (EVMWordSignedBigInt_is_unsigned v) (conj _ _)).
  - rewrite MaxInt256_value. intro H. split.
    + rewrite (proj2 (EVMWordBigInt_fits v ltac:(lia))). reflexivity.
    + apply EVMWordSignedBigInt_overflow. lia.
  - intro H. split; [apply EVMWordBigInt_is_Uint64; exact H|].
    rewrite EVMWordSignedBigInt_is_unsigned;
      [apply EVMWordBigInt_is_Uint64; exact H|].
    rewrite MaxInt256_value. split; [lia|].
    apply Z.le_trans with (2 ^ 64); [lia | vm_compute; discriminate].
Qed.

Lemma encoders_agree_witness :
  0 <= 2 ^ 255 - 1 <= MaxInt256
  /\ EVMWordSignedBigInt (2 ^ 255 - 1) = EVMWordBigInt (2 ^ 255 - 1).
Proof.
  assert (H : 0 <= 2 ^ 255 - 1 <= MaxInt256) by (vm_compute; split; congruence).
  split; [exact H | exact (proj1 (encoders_agree _) H)].
Defined.

Lemma EVMWordBigInt_accepts_range (v : Z) :
  snd (EVMWordBigInt v) = None -> 0 <= v <= MaxUint256.
Proof.
  intro H. destruct (Z_lt_le_dec v 0) as [Hneg|Hpos].
  - rewrite (EVMWordBigInt_negative v Hneg) in H. discriminate.
  - split; [exact Hpos|]. rewrite MaxUint256_value.
    unfold EVMWordBigInt in H. rewrite Sign_neg in H.
    destruct (Z.ltb_spec v 0); [lia|]. change EVMWordByteLen with 32 in H.
    destruct (Z.gtb_spec (len (big.Bytes v)) 32) as [Hgt|Hle];
      [discriminate|].
    rewrite len_Bytes in Hle.
    assert (Hb : big.BitLen v <= 256).
    { pose proof (Z.div_mod (big.BitLen v + 7) 8).
      pose proof (Z.mod_pos_bound (big.BitLen v + 7) 8). lia. }
    apply BitLen_le_iff in Hb; lia.
Qed.

(** X7. Both encoders are injective: two integers that [EVMWordBigInt], or
    [EVMWordSignedBigInt], turns into the same word without error are
    equal. *)
Theorem encoders_injective (v1 v2 : Z) (word : list byte) :
  (EVMWordBigInt v1 = (word, None) ->
   EVMWordBigInt v2 = (word, None) -> v1 = v2)
  /\ (EVMWordSignedBigInt v1 = (word, None) ->
      EVMWordSignedBigInt v2 = (word, None) -> v1 = v2).
Proof.
  split; intros H1 H2.
  - assert (R : forall v, EVMWordBigInt v = (word, None) -> be_decode word = v).
    { intros v Hv.
      assert (Hr : 0 <= v <= MaxUint256).
      { apply EVMWordBigInt_accepts_range. rewrite Hv. reflexivity. }
      destruct (EVMWordBigInt_roundtrip v Hr) as (_ & _ & _ & _ & Hd).
      rewrite Hv in Hd. exact Hd. }
    rewrite <- (R v1 H1). apply R. exact H2.
  - assert (R : forall v, EVMWordSignedBigInt v = (word, None) ->
                          decode_int256 word = v).
    { intros v Hv.
      destruct (Z_lt_le_dec (Z.abs v) (2 ^ 255)) as [Hlt|Hge].
      - destruct (EVMWordSignedBigInt_roundtrip v Hlt) as (w & Hw & _ & Hd).
        congruence.
      - rewrite (EVMWordSignedBigInt_overflow v Hge) in Hv. discriminate. }
    rewrite <- (R v1 H1). apply R. exact H2.
Qed.

Lemma encoders_injective_witness :
  EVMWordBigInt 26 = (EVMWordUint64 26, None)
  /\ (forall v, EVMWordBigInt v = (EVMWordUint64 26, None) -> 26 = v).
Proof.
  assert (H : EVMWordBigInt 26 = (EVMWordUint64 26, None)) by reflexivity.
  split; [exact H|]. intros v Hv.
  exact (proj1 (encoders_injective 26 v _) H Hv).
Defined.

(** ** The shape of a signed word *)

Lemma signed_word_value (v : Z) (word : list byte) :
  EVMWordSignedBigInt v = (word, None) ->
  List.length word = 32%nat
  /\ be_decode word = (if v <? 0 then 2 ^ 256 + v else v)
  /\ Z.abs v < 2 ^ 255.
Proof.
  intro H.
  destruct (Z_lt_le_dec (Z.abs v) (2 ^ 255)) as [Hlt|Hge].
  2: { rewrite (EVMWordSignedBigInt_overflow v Hge) in H. discriminate. }
  destruct (EVMWordSignedBigInt_roundtrip v Hlt) as (w & Hw & Hl & Hd).
  assert (w = word) by congruence. subst w.
  refine (conj Hl (conj _ Hlt)).
  pose proof (be_decode_range word) as R. unfold len in R. rewrite Hl in R.
  change (256 ^ Z.of_nat 32) with (2 ^ 256) in R.
  assert (E : 2 ^ 256 = 2 * 2 ^ 255) by reflexivity.
  unfold decode_int256 in Hd.
  destruct (Z.ltb_spec (be_decode word) (2 ^ 255)), (Z.ltb_spec v 0); lia.
Qed.

(** X8. In the word [EVMWordSignedBigInt] returns, the top bit is the sign:
    the first byte is 128 or more exactly when the integer is negative. *)
Theorem signed_word_sign_bit (v : Z) (word : list byte) :
  EVMWordSignedBigInt v = (word, None) ->
  (v < 0 <-> 128 <= byte.unsigned (hd Byte.x00 word)).
Proof.
  intro H. destruct (signed_word_value v word H) as (Hl & Hd & Hv).
  destruct word as [|b rest]; [discriminate|]. cbn [hd].
  injection Hl as Hl. rewrite be_decode_cons in Hd.
  pose proof (be_decode_range rest) as R. unfold len in *. rewrite Hl in *.
  change (256 ^ Z.of_nat 31) with (2 ^ 248) in *.
  pose proof (byte.unsigned_range b) as Rb.
  assert (E1 : 2 ^ 256 = 256 * 2 ^ 248) by reflexivity.
  assert (E2 : 2 ^ 255 = 128 * 2 ^ 248) by reflexivity.
  destruct (Z.ltb_spec v 0); nia.
Qed.

Lemma signed_word_sign_bit_witness :
  EVMWordSignedBigInt (-1) = (repeat Byte.xff 32, None)
  /\ (-1 < 0 <-> 128 <= byte.unsigned (hd Byte.x00 (repeat Byte.xff 32))).
Proof.
  assert (H : EVMWordSignedBigInt (-1) = (repeat Byte.xff 32, None))
    by reflexivity.
  split; [exact H | exact (signed_word_sign_bit _ _ H)].
Defined.

Lemma EVMWordSignedBigInt_of_int64 (i : Z) :
  MinInt64 <= i <= MaxInt64 ->
  EVMWordSignedBigInt i
  = (repeat (if i <? 0 then Byte.xff else Byte.x00) 24
       ++ binary.PutUint64 (to_uint64 i), None).
Proof.
  intro H. destruct (EVMWordSignedBigInt_int64 i H) as (word & Hw & Hl).
  rewrite Hw. f_equal.
  destruct (signed_word_value i word Hw) as (_ & Hd & _).
  apply be_decode_inj.
  - rewrite Hl, length_app, repeat_length. reflexivity.
  - rewrite Hd, be_decode_app, PutUint64_be_bytes, be_decode_be_bytes.
    unfold len. rewrite be_bytes_length.
    change (256 ^ Z.of_nat 8) with (2 ^ 64). unfold to_uint64.
    rewrite Z.mod_mod by discriminate.
    unfold MinInt64, MaxInt64 in H.
    assert (E63 : 2 ^ 64 = 2 * 2 ^ 63) by reflexivity.
    destruct (Z.ltb_spec i 0).
    + change (be_decode (repeat Byte.xff 24)) with (2 ^ 192 - 1).
      replace (i mod 2 ^ 64) with (i + 2 ^ 64).
      * assert (E : 2 ^ 256 = 2 ^ 192 * 2 ^ 64) by reflexivity. lia.
      * apply Z.mod_unique with (-1); lia.
    + rewrite be_decode_zeros, Z.mod_small by lia. lia.
Qed.

(** X9. For a 64-bit signed integer the signed word is its sign extension:
    24 bytes that are all [0xff] for a negative integer and all [0x00]
    otherwise, then the 8 bytes of the integer as a [uint64], big-endian. *)
Theorem signed_word_sign_extension (i : Z) :
  MinInt64 <= i <= MaxInt64 ->
  EVMWordSignedBigInt i
  = (repeat (if i <? 0 then Byte.xff else Byte.x00) 24
       ++ binary.PutUint64 (to_uint64 i), None).
Proof. apply EVMWordSignedBigInt_of_int64. Qed.

Lemma signed_word_sign_extension_witness :
  MinInt64 <= MinInt64 <= MaxInt64
  /\ EVMWordSignedBigInt MinInt64
     = (repeat Byte.xff 24 ++ Byte.x80 :: repeat Byte.x00 7, None).
Proof.
  assert (H : MinInt64 <= MinInt64 <= MaxInt64)
    by (vm_compute; split; congruence).
  split; [exact H|]. rewrite (signed_word_sign_extension _ H). reflexivity.
Defined.

(** * Further properties of the transcoders *)

(** ** What a transcoder returns: one word, or an error and nothing *)

Lemma EVMWordBigInt_shape (v : Z) :
  snd (EVMWordBigInt v) = None /\ List.length (fst (EVMWordBigInt v)) = 32%nat
  \/ snd (EVMWordBigInt v) <> None /\ fst (EVMWordBigInt v) = [].
Proof.
  destruct (snd (EVMWordBigInt v)) eqn:He.
  - right. split; [discriminate|]. unfold EVMWordBigInt in *.
    destruct (big.Sign v =? -1); [reflexivity|].
    destruct (len (big.Bytes v) >? EVMWordByteLen); [reflexivity|discriminate].
  - left. split; [reflexivity|].
    apply EVMWordBigInt_roundtrip, EVMWordBigInt_accepts_range, He.
Qed.

Lemma EVMWordSignedBigInt_shape (v : Z) :
  snd (EVMWordSignedBigInt v) = None
  /\ List.length (fst (EVMWordSignedBigInt v)) = 32%nat
  \/ snd (EVMWordSignedBigInt v) <> None /\ fst (EVMWordSignedBigInt v) = [].
Proof.
  destruct (Z_lt_le_dec (Z.abs v) (2 ^ 255)) as [Hlt|Hge].
  - left. destruct (EVMWordSignedBigInt_roundtrip v Hlt) as (w & Hw & Hl & _).
    rewrite Hw. split; [reflexivity | exact Hl].
  - right. rewrite (EVMWordSignedBigInt_overflow v Hge).
    split; [discriminate | reflexivity].
Qed.

Lemma EVMTranscodeBytes_shape (arch : float64.Arch) (value : gjson.Result) :
  snd (EVMTranscodeBytes arch value) = None
  /\ (exists k : Z,
         len (fst (EVMTranscodeBytes arch value)) = 32 * k /\ 3 <= k)
  \/ snd (EVMTranscodeBytes arch value) <> None
     /\ fst (EVMTranscodeBytes arch value) = [].
Proof.
  destruct (gjson.Typ value) eqn:Ht.
  - right. unfold EVMTranscodeBytes. rewrite Ht.
    split; [discriminate | reflexivity].
  - left. unfold EVMTranscodeBytes. rewrite Ht. split; [reflexivity|].
    exists 3. split; [reflexivity | lia].
  - left. destruct (EVMTranscodeBytes_Number_branch arch value Ht)
      as (word & _ & Hl & Heq).
    rewrite Heq. split; [reflexivity|]. exists 3. cbn [fst].
    rewrite !len_app, !len_EVMWordUint64. unfold len. rewrite Hl.
    split; [reflexivity | lia].
  - left. rewrite (EVMTranscodeBytes_String_branch arch value Ht).
    split; [reflexivity|]. cbn [fst].
    set (n := strlen (gjson.Str value)).
    assert (Hn : 0 <= n) by (subst n; unfold strlen; lia).
    pose proof (Z.mod_pos_bound n 32 eq_refl) as Hm.
    pose proof (Z.div_mod n 32 ltac:(discriminate)) as Hd.
    pose proof (Z.div_pos n 32 Hn eq_refl) as Hq.
    exists (3 + n / 32).
    rewrite !len_app, !len_EVMWordUint64.
    replace (len (list_byte_of_string (gjson.Str value))) with n
      by (unfold len, n, strlen; now rewrite length_list_byte_of_string).
    unfold len at 1. rewrite repeat_length. lia.
  - left. unfold EVMTranscodeBytes. rewrite Ht. split; [reflexivity|].
    exists 3. split; [reflexivity | lia].
  - right. unfold EVMTranscodeBytes. rewrite Ht.
    split; [discriminate | reflexivity].
Qed.

Lemma EVMTranscodeUint256_shape (arch : float64.Arch) (value : gjson.Result) :
  snd (EVMTranscodeUint256 arch value) = None
  /\ List.length (fst (EVMTranscodeUint256 arch value)) = 32%nat
  \/ snd (EVMTranscodeUint256 arch value) <> None
     /\ fst (EVMTranscodeUint256 arch value) = [].
Proof.
  unfold EVMTranscodeUint256.
  destruct (gjson.Typ value);
    try (right; split; [discriminate | reflexivity]);
    try apply EVMWordBigInt_shape.
  destruct (parseString (gjson.Str value));
    [apply EVMWordBigInt_shape | right; split; [discriminate | reflexivity]].
Qed.

Lemma EVMTranscodeInt256_shape (arch : float64.Arch) (value : gjson.Result) :
  snd (EVMTranscodeInt256 arch value) = None
  /\ List.length (fst (EVMTranscodeInt256 arch value)) = 32%nat
  \/ snd (EVMTranscodeInt256 arch value) <> None
     /\ fst (EVMTranscodeInt256 arch value) = [].
Proof.
  unfold EVMTranscodeInt256.
  destruct (gjson.Typ value);
    try (right; split; [discriminate | reflexivity]);
    try apply EVMWordSignedBigInt_shape.
  destruct (parseString (gjson.Str value));
    [apply EVMWordSignedBigInt_shape
    | right; split; [discriminate | reflexivity]].
Qed.

Lemma EVMTranscodeBool_shape (value : gjson.Result) :
  snd (EVMTranscodeBool value) = None
  /\ List.length (fst (EVMTranscodeBool value)) = 32%nat
  \/ snd (EVMTranscodeBool value) <> None /\ fst (EVMTranscodeBool value) = [].
Proof.
  unfold EVMTranscodeBool.
  destruct (gjson.Typ value);
    try (right; split; [discriminate | reflexivity]);
    left; split; reflexivity.
Qed.

(** X10. Whatever the value and the format, [EVMTranscodeJSONWithFormat]
    returns either a nil error with whole words (a length that is a multiple
    of 32: exactly one word for the formats other than ["bytes"], three words
    or more for ["bytes"]), or an error with an empty slice: never an error
    beside bytes, and never a partial word. *)
Theorem EVMTranscodeJSONWithFormat_output
  (arch : float64.Arch) (value : gjson.Result) (format : string) :
  snd (EVMTranscodeJSONWithFormat arch value format) = None
  /\ (format <> "bytes"%string ->
      len (fst (EVMTranscodeJSONWithFormat arch value format)) = 32)
  /\ (format = "bytes"%string ->
      exists k : Z,
        len (fst (EVMTranscodeJSONWithFormat arch value format)) = 32 * k
        /\ 3 <= k)
  \/ snd (EVMTranscodeJSONWithFormat arch value format) <> None
     /\ fst (EVMTranscodeJSONWithFormat arch value format) = [].
Proof.
  unfold EVMTranscodeJSONWithFormat, FormatBytes, FormatUint256, FormatInt256,
    FormatBool.
  assert (one : forall r : list byte * option error,
             snd r = None /\ List.length (fst r) = 32%nat
             \/ snd r <> None /\ fst r = [] ->
             format <> "bytes"%string ->
             snd r = None
             /\ (format <> "bytes"%string -> len (fst r) = 32)
             /\ (format = "bytes"%string ->
                 exists k : Z, len (fst r) = 32 * k /\ 3 <= k)
             \/ snd r <> None /\ fst r = []).
  { intros r [[He Hl]|Herr] Hf; [left | right; exact Herr].
    refine (conj He (conj _ _)); [|contradiction].
    intros _. unfold len. rewrite Hl. reflexivity. }
  destruct (String.eqb_spec format "bytes") as [->|Hb].
  - destruct (EVMTranscodeBytes_shape arch value) as [[He Hk]|Herr];
      [left | right; exact Herr].
    refine (conj He (conj _ _)); [congruence | intros _; exact Hk].
  - destruct (String.eqb_spec format "uint256");
      [apply one; [apply EVMTranscodeUint256_shape | exact Hb]|].
    destruct (String.eqb_spec format "int256");
      [apply one; [apply EVMTranscodeInt256_shape | exact Hb]|].
    destruct (String.eqb_spec format "bool");
      [apply one; [apply EVMTranscodeBool_shape | exact Hb]|].
    right. split; [discriminate | reflexivity].
Qed.

(** ** The inputs each format accepts *)

Lemma EVMWordBigInt_nil_iff (v : Z) :
  snd (EVMWordBigInt v) = None <-> 0 <= v <= MaxUint256.
Proof.
  split; [apply EVMWordBigInt_accepts_range|].
  intro H. rewrite (proj2 (EVMWordBigInt_fits v H)). reflexivity.
Qed.

Lemma EVMWordSignedBigInt_nil_iff (v : Z) :
  snd (EVMWordSignedBigInt v) = None <-> MinInt256 <= v <= MaxInt256.
Proof.
  rewrite MinInt256_value, MaxInt256_value.
  destruct (Z.lt_ge_cases (Z.abs v) (2 ^ 255)) as [Hs|Hl].
  - rewrite (EVMWordSignedBigInt_fits v Hs). split; [intros _; lia | reflexivity].
  - rewrite (EVMWordSignedBigInt_overflow v Hl).
    split; [discriminate | intro H; lia].
Qed.

Lemma EVMTranscodeBytes_accepts (arch : float64.Arch) (value : gjson.Result) :
  snd (EVMTranscodeBytes arch value) = None
  <-> gjson.Typ value = gjson.String \/ gjson.Typ value = gjson.True
      \/ gjson.Typ value = gjson.False \/ gjson.Typ value = gjson.Number.
Proof.
  destruct (gjson.Typ value) eqn:Ht.
  - unfold EVMTranscodeBytes. rewrite Ht.
    split; [discriminate | intros [H|[H|[H|H]]]; discriminate H].
  - unfold EVMTranscodeBytes. rewrite Ht, ConcatBytes_concat.
    split; [intros _; tauto | reflexivity].
  - destruct (EVMTranscodeBytes_Number_branch arch value Ht) as (w & _ & _ & E).
    rewrite E. split; [intros _; tauto | reflexivity].
  - unfold EVMTranscodeBytes. rewrite Ht, ConcatBytes_concat.
    split; [intros _; tauto | reflexivity].
  - unfold EVMTranscodeBytes. rewrite Ht, ConcatBytes_concat.
    split; [intros _; tauto | reflexivity].
  - unfold EVMTranscodeBytes. rewrite Ht.
    split; [discriminate | intros [H|[H|[H|H]]]; discriminate H].
Qed.

Lemma EVMTranscodeUint256_accepts (arch : float64.Arch) (value : gjson.Result) :
  snd (EVMTranscodeUint256 arch value) = None
  <-> gjson.Typ value = gjson.Number \/ gjson.Typ value = gjson.Null
      \/ gjson.Typ value = gjson.String
         /\ exists v, parseString (gjson.Str value) = Some v
                      /\ 0 <= v <= MaxUint256.
Proof.
  destruct (gjson.Typ value) eqn:Ht.
  - unfold EVMTranscodeUint256. rewrite Ht. split; [intros _; tauto | reflexivity].
  - unfold EVMTranscodeUint256. rewrite Ht.
    split; [discriminate | intros [H|[H|[H _]]]; discriminate H].
  - split; [intros _; tauto | intros _].
    exact (proj1 (proj2 (proj2 (EVMTranscodeUint256_Number_branch arch value Ht)))).
  - unfold EVMTranscodeUint256. rewrite Ht.
    destruct (parseString (gjson.Str value)) as [v|].
    + rewrite EVMWordBigInt_nil_iff. split.
      * intro H. right; right. split; [reflexivity|]. exists v. tauto.
      * intros [H|[H|[_ (v' & E & H)]]]; try discriminate H.
        injection E as <-. exact H.
    + split; [discriminate|].
      intros [H|[H|[_ (v' & E & _)]]]; discriminate.
  - unfold EVMTranscodeUint256. rewrite Ht.
    split; [discriminate | intros [H|[H|[H _]]]; discriminate H].
  - unfold EVMTranscodeUint256. rewrite Ht.
    split; [discriminate | intros [H|[H|[H _]]]; discriminate H].
Qed.

Lemma EVMTranscodeInt256_accepts (arch : float64.Arch) (value : gjson.Result) :
  snd (EVMTranscodeInt256 arch value) = None
  <-> gjson.Typ value = gjson.Number \/ gjson.Typ value = gjson.Null
      \/ gjson.Typ value = gjson.String
         /\ exists v, parseString (gjson.Str value) = Some v
                      /\ MinInt256 <= v <= MaxInt256.
Proof.
  destruct (gjson.Typ value) eqn:Ht.
  - unfold EVMTranscodeInt256. rewrite Ht. split; [intros _; tauto | reflexivity].
  - unfold EVMTranscodeInt256. rewrite Ht.
    split; [discriminate | intros [H|[H|[H _]]]; discriminate H].
  - split; [intros _; tauto | intros _].
    unfold EVMTranscodeInt256. rewrite Ht.
    destruct (EVMWordSignedBigInt_int64
                (float64.to_int64 arch (gjson.Num value))
                (float_to_int64_range arch (gjson.Num value))) as (w & E & _).
    rewrite E. reflexivity.
  - unfold EVMTranscodeInt256. rewrite Ht.
    destruct (parseString (gjson.Str value)) as [v|].
    + rewrite EVMWordSignedBigInt_nil_iff. split.
      * intro H. right; right. split; [reflexivity|]. exists v. tauto.
      * intros [H|[H|[_ (v' & E & H)]]]; try discriminate H.
        injection E as <-. exact H.
    + split; [discriminate|].
      intros [H|[H|[_ (v' & E & _)]]]; discriminate.
  - unfold EVMTranscodeInt256. rewrite Ht.
    split; [discriminate | intros [H|[H|[H _]]]; discriminate H].
  - unfold EVMTranscodeInt256. rewrite Ht.
    split; [discriminate | intros [H|[H|[H _]]]; discriminate H].
Qed.

Lemma EVMTranscodeBool_accepts (value : gjson.Result) :
  snd (EVMTranscodeBool value) = None <-> gjson.Typ value <> gjson.JSON.
Proof.
  unfold EVMTranscodeBool. destruct (gjson.Typ value);
    (split; [intros _; discriminate | reflexivity])
    || (split; [discriminate | intro H; contradiction H; reflexivity]).
Qed.

(** X1. The inputs [EVMTranscodeJSONWithFormat] accepts, format by format:
    the error is nil exactly when the format is ["bytes"] and the value a
    string, a boolean or a number; or ["uint256"] and the value a number,
    null, or a string that is read as an integer from 0 to [MaxUint256]; or
    ["int256"] and the value a number, null, or a string that is read as an
    integer from [MinInt256] to [MaxInt256]; or ["bool"] and the value
    anything but an object or array. So a number is never refused for its
    size or sign, null is refused by ["bytes"] alone, and every other format
    is refused whatever the value. *)
Theorem EVMTranscodeJSONWithFormat_accepts
  (arch : float64.Arch) (value : gjson.Result) (format : string) :
  snd (EVMTranscodeJSONWithFormat arch value format) = None
  <-> format = "bytes"%string
      /\ (gjson.Typ value = gjson.String \/ gjson.Typ value = gjson.True
          \/ gjson.Typ value = gjson.False \/ gjson.Typ value = gjson.Number)
      \/ format = "uint256"%string
         /\ (gjson.Typ value = gjson.Number \/ gjson.Typ value = gjson.Null
             \/ gjson.Typ value = gjson.String
                /\ exists v, parseString (gjson.Str value) = Some v
                             /\ 0 <= v <= MaxUint256)
      \/ format = "int256"%string
         /\ (gjson.Typ value = gjson.Number \/ gjson.Typ value = gjson.Null
             \/ gjson.Typ value = gjson.String
                /\ exists v, parseString (gjson.Str value) = Some v
                             /\ MinInt256 <= v <= MaxInt256)
      \/ format = "bool"%string /\ gjson.Typ value <> gjson.JSON.
Proof.
  unfold EVMTranscodeJSONWithFormat, FormatBytes, FormatUint256, FormatInt256,
    FormatBool.
  destruct (String.eqb_spec format "bytes") as [->|Hb].
  { rewrite EVMTranscodeBytes_accepts. split.
    - intro H. left. split; [reflexivity | exact H].
    - intros [[_ H]|[[E _]|[[E _]|[E _]]]]; [exact H | discriminate E ..]. }
  destruct (String.eqb_spec format "uint256") as [->|Hu].
  { rewrite EVMTranscodeUint256_accepts. split.
    - intro H. right; left. split; [reflexivity | exact H].
    - intros [[E _]|[[_ H]|[[E _]|[E _]]]]; [| exact H | |]; discriminate E. }
  destruct (String.eqb_spec format "int256") as [->|Hi].
  { rewrite EVMTranscodeInt256_accepts. split.
    - intro H. right; right; left. split; [reflexivity | exact H].
    - intros [[E _]|[[E _]|[[_ H]|[E _]]]]; [| | exact H |]; discriminate E. }
  destruct (String.eqb_spec format "bool") as [->|Ho].
  { rewrite EVMTranscodeBool_accepts. split.
    - intro H. right; right; right. split; [reflexivity | exact H].
    - intros [[E _]|[[E _]|[[E _]|[_ H]]]]; [| | | exact H]; discriminate E. }
  split; [discriminate|].
  intros [[E _]|[[E _]|[[E _]|[E _]]]]; contradiction.
Qed.

(** ** EVMTranscodeInt256 on numbers, and the header of EVMTranscodeBytes *)

Lemma EVMTranscodeInt256_Number_branch
  (arch : float64.Arch) (value : gjson.Result) :
  gjson.Typ value = gjson.Number ->
  EVMTranscodeInt256 arch value
  = EVMWordSignedBigInt (float64.to_int64 arch (gjson.Num value)).
Proof. intro Ht. unfold EVMTranscodeInt256. rewrite Ht. reflexivity. Qed.

(** X11. For a JSON number [EVMTranscodeInt256] never fails: the number is
    converted to an [int64] first, and the result is the 32-byte sign
    extension of that integer, whose two's-complement value is the
    integer. *)
Theorem EVMTranscodeInt256_number
  (arch : float64.Arch) (value : gjson.Result) :
  gjson.Typ value = gjson.Number ->
  exists word,
    EVMTranscodeInt256 arch value = (word, None)
    /\ List.length word = 32%nat
    /\ decode_int256 word = float64.to_int64 arch (gjson.Num value)
    /\ word
       = repeat (if float64.to_int64 arch (gjson.Num value) <? 0
                 then Byte.xff else Byte.x00) 24
           ++ binary.PutUint64
                (to_uint64 (float64.to_int64 arch (gjson.Num value))).
Proof.
  intro Ht. rewrite (EVMTranscodeInt256_Number_branch arch value Ht).
  pose proof (float_to_int64_range arch (gjson.Num value)) as Hr.
  set (i := float64.to_int64 arch (gjson.Num value)) in *.
  assert (Habs : Z.abs i < 2 ^ 255)
    by (apply BitLen_le_iff; [lia | pose proof (BitLen_int64 i Hr); lia]).
  destruct (EVMWordSignedBigInt_roundtrip i Habs) as (word & Hw & Hl & Hd).
  exists word. refine (conj Hw (conj Hl (conj Hd _))).
  pose proof (EVMWordSignedBigInt_of_int64 i Hr) as E. congruence.
Qed.

Lemma EVMTranscodeInt256_number_witness :
  gjson.Typ (gjson.mkResult gjson.Number "" (-2.5)) = gjson.Number
  /\ exists word,
       EVMTranscodeInt256 float64.saturating
         (gjson.mkResult gjson.Number "" (-2.5)) = (word, None)
       /\ decode_int256 word = -2.
Proof.
  assert (Ht : gjson.Typ (gjson.mkResult gjson.Number "" (-2.5)) = gjson.Number)
    by reflexivity.
  split; [exact Ht|].
  destruct (EVMTranscodeInt256_number float64.saturating _ Ht)
    as (word & Hw & _ & Hd & _).
  exists word. split; [exact Hw | exact Hd].
Defined.

(** X12. The ["bytes"] encoding of a boolean or of a number is a header of
    two words, of values 64 and 32, followed by the word the ["bool"], or the
    ["int256"], transcoder returns for the same value. *)
Theorem EVMTranscodeBytes_header
  (arch : float64.Arch) (value : gjson.Result) :
  (gjson.Typ value = gjson.True \/ gjson.Typ value = gjson.False ->
   EVMTranscodeBytes arch value
   = (EVMWordUint64 64 ++ EVMWordUint64 32 ++ fst (EVMTranscodeBool value),
      None)
   /\ snd (EVMTranscodeBool value) = None)
  /\ (gjson.Typ value = gjson.Number ->
      EVMTranscodeBytes arch value
      = (EVMWordUint64 64 ++ EVMWordUint64 32
           ++ fst (EVMTranscodeInt256 arch value), None)
      /\ snd (EVMTranscodeInt256 arch value) = None).
Proof.
  split.
  - intros [Ht|Ht]; unfold EVMTranscodeBytes, EVMTranscodeBool; rewrite Ht;
      rewrite ConcatBytes_concat; cbn [List.concat fst snd];
      rewrite app_nil_r; split; reflexivity.
  - intro Ht. rewrite (EVMTranscodeInt256_Number_branch arch value Ht).
    destruct (EVMTranscodeBytes_Number_branch arch value Ht)
      as (word & Hw & _ & Heq).
    rewrite Heq, Hw. split; reflexivity.
Qed.

Lemma EVMTranscodeBytes_header_witness :
  gjson.Typ (gjson.mkResult gjson.Number "" 7) = gjson.Number
  /\ EVMTranscodeBytes float64.saturating (gjson.mkResult gjson.Number "" 7)
     = (EVMWordUint64 64 ++ EVMWordUint64 32 ++ EVMWordUint64 7, None).
Proof.
  assert (Ht : gjson.Typ (gjson.mkResult gjson.Number "" 7) = gjson.Number)
    by reflexivity.
  split; [exact Ht|].
  rewrite (proj1 (proj2 (EVMTranscodeBytes_header float64.saturating _) Ht)).
  reflexivity.
Defined.

(** * Properties of the helpers of utils/utils.go *)

(** ** Hexadecimal digits *)

Lemma small_nat (x bound : Z) :
  0 <= x < bound -> exists n : nat, (n < Z.to_nat bound)%nat /\ x = Z.of_nat n.
Proof. intro H. exists (Z.to_nat x). lia. Qed.

Lemma digitVal_hex_digit (x : Z) :
  0 <= x < 16 -> big.digitVal (hex.digit x) = Some x.
Proof.
  intro H. destruct (small_nat x 16 H) as (n & Hn & ->).
  change (Z.to_nat 16) with 16%nat in Hn.
  do 16 (destruct n as [|n]; [reflexivity|]). lia.
Qed.

Lemma digitVal_range (c : ascii) (d : Z) :
  big.digitVal c = Some d -> 0 <= d < 36.
Proof.
  unfold big.digitVal. set (n := Z.of_nat (nat_of_ascii c)).
  destruct (Z.leb_spec 48 n), (Z.leb_spec n 57); cbn [andb];
    try (intro E; injection E as <-; lia);
    destruct (Z.leb_spec 97 n), (Z.leb_spec n 122); cbn [andb];
    try (intro E; injection E as <-; lia);
    destruct (Z.leb_spec 65 n), (Z.leb_spec n 90); cbn [andb];
    try (intro E; injection E as <-; lia); discriminate.
Qed.

Lemma scanDigits_hex_loop (fuel : nat) (u : Z) (buf : string) :
  0 <= u < 16 ^ Z.of_nat (S fuel) ->
  big.scanDigits 16 0 (fmt.hex_loop fuel u buf) = big.scanDigits 16 u buf.
Proof.
  revert u buf. induction fuel as [|k IH]; intros u buf Hu.
  - change (16 ^ Z.of_nat 1) with 16 in Hu. cbn [fmt.hex_loop big.scanDigits].
    rewrite digitVal_hex_digit by exact Hu.
    destruct (Z.ltb_spec u 16); [reflexivity | lia].
  - cbn [fmt.hex_loop]. destruct (Z.geb_spec u 16) as [Hge|Hlt].
    + rewrite Nat2Z.inj_succ, Z.pow_succ_r in Hu by lia.
      rewrite Z.shiftr_div_pow2 by lia. change (2 ^ 4) with 16.
      change 15 with (Z.ones 4). rewrite Z.land_ones by lia.
      change (2 ^ 4) with 16.
      pose proof (Z.mod_pos_bound u 16 eq_refl) as Hm.
      pose proof (Z.div_mod u 16 ltac:(discriminate)) as Hd.
      rewrite IH.
      * cbn [big.scanDigits]. rewrite digitVal_hex_digit by exact Hm.
        destruct (Z.ltb_spec (u mod 16) 16); [|lia].
        f_equal. lia.
      * split; [apply Z.div_pos; lia|].
        apply Z.div_lt_upper_bound; lia.
    + cbn [big.scanDigits]. rewrite digitVal_hex_digit by lia.
      destruct (Z.ltb_spec u 16); [reflexivity | lia].
Qed.

Lemma scanDigits_ge (s : string) (acc v : Z) :
  0 <= acc -> big.scanDigits 16 acc s = Some v -> acc <= v.
Proof.
  revert acc. induction s as [|c r IH]; intros acc Ha H; cbn [big.scanDigits] in H.
  - injection H as <-. lia.
  - destruct (big.digitVal c) as [d|] eqn:Hd; [|discriminate].
    destruct (Z.ltb_spec d 16); [|discriminate].
    pose proof (digitVal_range c d Hd).
    apply IH in H; lia.
Qed.

Lemma strconv_digit_eq (c : ascii) : strconv.digit c = big.digitVal c.
Proof. reflexivity. Qed.

(** [ParseUint]'s loop returns what reading the digits without a bound gives,
    when that fits 64 bits. *)
Lemma ParseUint_loop_scan (s : string) (n v : Z) :
  0 <= n ->
  big.scanDigits 16 n s = Some v ->
  v < 2 ^ 64 ->
  strconv.ParseUint_loop 16 (2 ^ 60) (2 ^ 64 - 1) n s = (v, None).
Proof.
  revert n. induction s as [|c r IH]; intros n Hn Hs Hv;
    cbn [big.scanDigits strconv.ParseUint_loop] in *.
  - injection Hs as <-. reflexivity.
  - rewrite strconv_digit_eq.
    destruct (big.digitVal c) as [d|] eqn:Hd; [|discriminate].
    destruct (Z.ltb_spec d 16) as [Hd16|]; [|discriminate].
    pose proof (digitVal_range c d Hd) as Rd.
    pose proof (scanDigits_ge r (n * 16 + d) v ltac:(lia) Hs) as Hge.
    assert (E : 2 ^ 64 = 16 * 2 ^ 60) by reflexivity.
    destruct (Z.geb_spec d 16); [lia|].
    destruct (Z.geb_spec n (2 ^ 60)); [lia|].
    rewrite (to_uint64_small (n * 16)) by lia.
    rewrite (to_uint64_small (n * 16 + d)) by lia.
    destruct (Z.ltb_spec (n * 16 + d) (n * 16)); [lia|].
    destruct (Z.gtb_spec (n * 16 + d) (2 ^ 64 - 1)); [lia|].
    cbn [orb]. apply IH; [lia | exact Hs | exact Hv].
Qed.

(** And the other way round: when the loop returns no error, the string is
    made of hexadecimal digits, and its value fits 64 bits. *)
Lemma ParseUint_loop_ok (s : string) (n v : Z) :
  0 <= n < 2 ^ 64 ->
  strconv.ParseUint_loop 16 (2 ^ 60) (2 ^ 64 - 1) n s = (v, None) ->
  big.scanDigits 16 n s = Some v /\ 0 <= v < 2 ^ 64.
Proof.
  revert n. induction s as [|c r IH]; intros n Hn H;
    cbn [big.scanDigits strconv.ParseUint_loop] in *.
  - injection H as <-. split; [reflexivity | exact Hn].
  - rewrite strconv_digit_eq in H.
    destruct (big.digitVal c) as [d|] eqn:Hd; [|discriminate].
    pose proof (digitVal_range c d Hd) as Rd.
    assert (E : 2 ^ 64 = 16 * 2 ^ 60) by reflexivity.
    destruct (Z.geb_spec d 16); [discriminate|].
    destruct (Z.ltb_spec d 16); [|lia].
    destruct (Z.geb_spec n (2 ^ 60)); [discriminate|].
    rewrite (to_uint64_small (n * 16)) in H by lia.
    rewrite (to_uint64_small (n * 16 + d)) in H by lia.
    destruct (Z.ltb_spec (n * 16 + d) (n * 16)); [discriminate|].
    destruct (Z.gtb_spec (n * 16 + d) (2 ^ 64 - 1)); [discriminate|].
    cbn [orb] in H. apply IH in H; [exact H | lia].
Qed.

(** ** The hex prefix *)

Lemma HasHexPrefix_cons (c0 c1 : ascii) (r : string) :
  HasHexPrefix (String.String c0 (String.String c1 r))
  = Ascii.eqb c0 "0" && Ascii.eqb c1 "x".
Proof.
  unfold HasHexPrefix, strlen. cbn [String.length String.get].
  destruct (Z.leb_spec 2 (Z.of_nat (S (S (String.length r))))); [|lia].
  reflexivity.
Qed.

Lemma HasHexPrefix_short (s : string) :
  (String.length s < 2)%nat -> HasHexPrefix s = false.
Proof.
  destruct s as [|c0 [|c1 r]]; cbn [String.length]; intro H;
    [reflexivity | reflexivity | lia].
Qed.

Lemma HasHexPrefix_true (s : string) :
  HasHexPrefix s = true <-> exists rest, s = ("0x" ++ rest)%string.
Proof.
  destruct s as [|c0 [|c1 r]].
  - split; [discriminate | intros [rest H]; discriminate].
  - split; [discriminate | intros [rest H]; discriminate].
  - rewrite HasHexPrefix_cons, andb_true_iff, !Ascii.eqb_eq. split.
    + intros [-> ->]. exists r. reflexivity.
    + intros [rest H]. cbn in H. split; congruence.
Qed.

Lemma HasHexPrefix_0x (rest : string) : HasHexPrefix ("0x" ++ rest) = true.
Proof. apply (HasHexPrefix_cons "0" "x" rest). Qed.

Lemma HasHexPrefix_0X (rest : string) : HasHexPrefix ("0X" ++ rest) = false.
Proof. apply (HasHexPrefix_cons "0" "X" rest). Qed.

Lemma substring_all (s : string) : String.substring 0 (String.length s) s = s.
Proof.
  induction s as [|c s IH]; [reflexivity|].
  cbn [String.length String.substring]. now rewrite IH.
Qed.

Lemma RemoveHexPrefix_0x (rest : string) :
  RemoveHexPrefix ("0x" ++ rest) = rest.
Proof.
  unfold RemoveHexPrefix.
  replace (HasHexPrefix ("0x" ++ rest)) with true
    by (symmetry; apply HasHexPrefix_true; exists rest; reflexivity).
  cbn [String.append String.length Nat.sub String.substring].
  rewrite Nat.sub_0_r. apply substring_all.
Qed.

Lemma RemoveHexPrefix_noop (s : string) :
  HasHexPrefix s = false -> RemoveHexPrefix s = s.
Proof. intro H. unfold RemoveHexPrefix. now rewrite H. Qed.

Lemma strlen_append (a b : string) :
  strlen (a ++ b) = strlen a + strlen b.
Proof.
  unfold strlen. induction a as [|c a IH]; [reflexivity|].
  cbn [String.append String.length]. lia.
Qed.

(** X13. [RemoveHexPrefix] takes exactly one lower-case ["0x"] off the front:
    it returns [rest] for ["0x" ++ rest], whatever [rest] is (a second prefix
    stays), and its argument unchanged for any string that [HasHexPrefix]
    rejects, so for an upper-case ["0X"]; the result is two characters
    shorter or the string itself. *)
Theorem RemoveHexPrefix_spec (s : string) :
  (forall rest, s = ("0x" ++ rest)%string -> RemoveHexPrefix s = rest)
  /\ (HasHexPrefix s = false <-> RemoveHexPrefix s = s)
  /\ (forall rest, s = ("0X" ++ rest)%string -> RemoveHexPrefix s = s)
  /\ strlen (RemoveHexPrefix s)
     = strlen s - (if HasHexPrefix s then 2 else 0).
Proof.
  refine (conj _ (conj _ (conj _ _))).
  - intros rest ->. apply RemoveHexPrefix_0x.
  - split; [apply RemoveHexPrefix_noop|].
    intro H. destruct (HasHexPrefix s) eqn:Hp; [|reflexivity].
    apply HasHexPrefix_true in Hp. destruct Hp as [rest ->].
    rewrite RemoveHexPrefix_0x in H.
    apply (f_equal strlen) in H. rewrite strlen_append in H.
    change (strlen "0x") with 2 in H. lia.
  - intros rest ->. apply RemoveHexPrefix_noop, HasHexPrefix_0X.
  - destruct (HasHexPrefix s) eqn:Hp.
    + apply HasHexPrefix_true in Hp. destruct Hp as [rest ->].
      rewrite RemoveHexPrefix_0x, strlen_append.
      change (strlen "0x") with 2. lia.
    + rewrite RemoveHexPrefix_noop by exact Hp. lia.
Qed.

Lemma RemoveHexPrefix_spec_witness :
  ("0x0xFF" = "0x" ++ "0xFF")%string
  /\ RemoveHexPrefix "0x0xFF" = "0xFF"%string
  /\ RemoveHexPrefix "0XFF" = "0XFF"%string.
Proof.
  assert (H : ("0x0xFF" = "0x" ++ "0xFF")%string) by reflexivity.
  refine (conj H (conj _ _)).
  - exact (proj1 (RemoveHexPrefix_spec _) _ H).
  - exact (proj1 (proj2 (proj2 (RemoveHexPrefix_spec "0XFF"))) "FF"%string
             eq_refl).
Defined.

Lemma lower_is_0 (c : ascii) : strings.lower c = "0"%char <-> c = "0"%char.
Proof.
  split; [|intros ->; reflexivity].
  destruct c as [[] [] [] [] [] [] [] []]; cbv; intro H;
    first [reflexivity | discriminate H].
Qed.

Lemma lower_is_x (c : ascii) :
  strings.lower c = "x"%char <-> c = "x"%char \/ c = "X"%char.
Proof.
  split; [|intros [->| ->]; reflexivity].
  destruct c as [[] [] [] [] [] [] [] []]; cbv; intro H;
    first [left; reflexivity | right; reflexivity | discriminate H].
Qed.

(** The test of [AddHexPrefix]: true when a prefix has to be added. *)
Lemma AddHexPrefix_test (s : string) :
  (strlen s <? 2)
  || ((strlen s >? 1)
      && negb (String.eqb (strings.ToLower (String.substring 0 2 s)) "0x"))
  = false
  <-> exists rest, s = ("0x" ++ rest)%string \/ s = ("0X" ++ rest)%string.
Proof.
  destruct s as [|c0 [|c1 r]].
  - split; [discriminate | intros [rest [H|H]]; discriminate].
  - split; [discriminate | intros [rest [H|H]]; discriminate].
  - unfold strlen. cbn [String.length String.substring strings.ToLower].
    destruct (Z.ltb_spec (Z.of_nat (S (S (String.length r)))) 2); [lia|].
    destruct (Z.gtb_spec (Z.of_nat (S (S (String.length r)))) 1); [|lia].
    cbn [orb andb]. rewrite negb_false_iff, String.eqb_eq.
    replace (String.substring 0 0 r) with ""%string by (destruct r; reflexivity).
    cbn [strings.ToLower]. split.
    + intro E. injection E as E0 E1.
      apply (proj1 (lower_is_0 c0)) in E0.
      apply (proj1 (lower_is_x c1)) in E1. subst c0.
      exists r. destruct E1 as [->| ->]; [left | right]; reflexivity.
    + intros [rest [E|E]]; cbn in E; injection E as -> -> _; reflexivity.
Qed.

Lemma AddHexPrefix_cases (s : string) :
  (exists rest, s = ("0x" ++ rest)%string \/ s = ("0X" ++ rest)%string)
  /\ AddHexPrefix s = s
  \/ ~ (exists rest, s = ("0x" ++ rest)%string \/ s = ("0X" ++ rest)%string)
     /\ AddHexPrefix s = ("0x" ++ s)%string.
Proof.
  unfold AddHexPrefix. pose proof (AddHexPrefix_test s) as T.
  destruct ((strlen s <? 2)
            || (strlen s >? 1)
               && negb (String.eqb
                          (strings.ToLower (String.substring 0 2 s)) "0x")).
  - right. split; [|reflexivity]. intro H. apply T in H. discriminate.
  - left. split; [apply T|]; reflexivity.
Qed.

(** X14. [AddHexPrefix] returns its argument unchanged when it starts with
    ["0x"] or ["0X"] and puts a lower-case ["0x"] in front of it otherwise.
    It is idempotent, and removing the prefix after adding it is removing it
    from the argument; but after [AddHexPrefix] the test [HasHexPrefix] fails
    exactly for the arguments that start with the upper-case ["0X"]. *)
Theorem AddHexPrefix_spec (s : string) :
  ((exists rest, s = ("0x" ++ rest)%string \/ s = ("0X" ++ rest)%string)
   -> AddHexPrefix s = s)
  /\ (~ (exists rest, s = ("0x" ++ rest)%string \/ s = ("0X" ++ rest)%string)
      -> AddHexPrefix s = ("0x" ++ s)%string)
  /\ AddHexPrefix (AddHexPrefix s) = AddHexPrefix s
  /\ RemoveHexPrefix (AddHexPrefix s) = RemoveHexPrefix s
  /\ (HasHexPrefix (AddHexPrefix s) = false
      <-> exists rest, s = ("0X" ++ rest)%string).
Proof.
  destruct (AddHexPrefix_cases s) as [[Hp E]|[Hn E]].
  - refine (conj (fun _ => E) (conj _ (conj _ (conj _ _)))).
    + intro H. contradiction.
    + rewrite E. exact E.
    + rewrite E. reflexivity.
    + rewrite E. destruct Hp as [rest [->| ->]].
      * rewrite HasHexPrefix_0x. split; [discriminate|].
        intros [r' H]. discriminate.
      * split; [exists rest; reflexivity | intros _; apply HasHexPrefix_0X].
  - refine (conj _ (conj (fun _ => E) (conj _ (conj _ _)))).
    + intro H. contradiction.
    + rewrite E.
      destruct (AddHexPrefix_cases ("0x" ++ s)) as [[_ E2]|[Hn2 _]];
        [exact E2|].
      exfalso. apply Hn2. exists s. left. reflexivity.
    + rewrite E, RemoveHexPrefix_0x. symmetry. apply RemoveHexPrefix_noop.
      destruct (HasHexPrefix s) eqn:Hh; [|reflexivity].
      apply HasHexPrefix_true in Hh. destruct Hh as [rest ->].
      exfalso. apply Hn. exists rest. left. reflexivity.
    + rewrite E. split.
      * intro H. rewrite HasHexPrefix_0x in H. discriminate.
      * intros [rest ->]. exfalso. apply Hn. exists rest. right. reflexivity.
Qed.

Lemma AddHexPrefix_spec_witness :
  (exists rest, "0XFF"%string = ("0x" ++ rest)%string
                \/ "0XFF"%string = ("0X" ++ rest)%string)
  /\ AddHexPrefix "0XFF" = "0XFF"%string
  /\ AddHexPrefix "FF" = "0xFF"%string.
Proof.
  assert (H : exists rest, "0XFF"%string = ("0x" ++ rest)%string
                           \/ "0XFF"%string = ("0X" ++ rest)%string)
    by (exists "FF"%string; right; reflexivity).
  refine (conj H (conj (proj1 (AddHexPrefix_spec _) H) eq_refl)).
Defined.

(** ** HexToUint64 and Uint64ToHex *)

Lemma hex_digit_not_x (y : Z) :
  hex.digit y <> "x"%char /\ hex.digit y <> "X"%char.
Proof.
  unfold hex.digit. generalize (Z.to_nat y) as k. intro k.
  do 16 (destruct k as [|k]; [split; discriminate|]).
  split; discriminate.
Qed.

(** The digits [hex_loop] writes: one digit, or two digits and more. *)
Lemma hex_loop_head (fuel : nat) (u : Z) (buf : string) :
  (exists a, fmt.hex_loop fuel u buf = String.String (hex.digit a) buf)
  \/ (exists a b rest,
         fmt.hex_loop fuel u buf
         = String.String (hex.digit a) (String.String (hex.digit b) rest)).
Proof.
  revert u buf. induction fuel as [|k IH]; intros u buf; cbn [fmt.hex_loop].
  - left. exists u. reflexivity.
  - destruct (u >=? 16); [|left; exists u; reflexivity].
    right. destruct (IH (Z.shiftr u 4)
                        (String.String (hex.digit (Z.land u 15)) buf))
      as [[a Ha]|(a & b & rest & Hab)].
    + exists a, (Z.land u 15), buf. exact Ha.
    + exists a, b, rest. exact Hab.
Qed.

Lemma HasHexPrefix_hex_loop (fuel : nat) (u : Z) :
  HasHexPrefix (fmt.hex_loop fuel u "") = false
  /\ fmt.hex_loop fuel u "" <> ""%string.
Proof.
  destruct (hex_loop_head fuel u "") as [[a ->]|(a & b & rest & ->)].
  - split; [reflexivity | discriminate].
  - split; [|discriminate]. rewrite HasHexPrefix_cons.
    destruct (Ascii.eqb_spec (hex.digit b) "x") as [E|_];
      [|apply andb_false_r].
    destruct (hex_digit_not_x b) as [Hx _]. contradiction.
Qed.

Lemma ParseUint16_Sprintf_x (i : Z) :
  0 <= i < 2 ^ 64 -> strconv.ParseUint16 (fmt.Sprintf_x i) = (i, None).
Proof.
  intro H. unfold strconv.ParseUint16, fmt.Sprintf_x.
  destruct (HasHexPrefix_hex_loop 15 i) as [_ Hne].
  destruct (Z.eqb_spec (strlen (fmt.hex_loop 15 i "")) 0) as [E|_].
  - destruct (fmt.hex_loop 15 i ""); [contradiction | discriminate E].
  - change ((2 ^ 64 - 1) / 16 + 1) with (2 ^ 60).
    apply ParseUint_loop_scan; [lia | | lia].
    rewrite scanDigits_hex_loop; [reflexivity|].
    change (16 ^ Z.of_nat 16) with (2 ^ 64). exact H.
Qed.

(** X15. [HexToUint64] reads back what [Uint64ToHex] writes: for every
    [uint64] [i], [HexToUint64 (Uint64ToHex i)] is [i] with a nil error; the
    string written starts with ["0x"], and its digits alone, without the
    prefix, are read back to [i] as well. *)
Theorem HexToUint64_Uint64ToHex (i : Z) :
  0 <= i < 2 ^ 64 ->
  HexToUint64 (Uint64ToHex i) = (i, None)
  /\ HasHexPrefix (Uint64ToHex i) = true
  /\ HexToUint64 (RemoveHexPrefix (Uint64ToHex i)) = (i, None).
Proof.
  intro H. unfold HexToUint64, Uint64ToHex.
  rewrite HasHexPrefix_0x, RemoveHexPrefix_0x.
  rewrite RemoveHexPrefix_noop by apply HasHexPrefix_hex_loop.
  pose proof (ParseUint16_Sprintf_x i H) as E.
  repeat split; exact E.
Qed.

Lemma HexToUint64_Uint64ToHex_witness :
  0 <= 2 ^ 64 - 1 < 2 ^ 64
  /\ Uint64ToHex (2 ^ 64 - 1) = "0xffffffffffffffff"%string
  /\ HexToUint64 "0xffffffffffffffff" = (2 ^ 64 - 1, None).
Proof.
  assert (H : 0 <= 2 ^ 64 - 1 < 2 ^ 64) by (vm_compute; split; congruence).
  refine (conj H (conj eq_refl _)).
  exact (proj1 (HexToUint64_Uint64ToHex _ H)).
Defined.

(** X16. [HexToUint64] returns a nil error exactly when its argument, one
    ["0x"] prefix removed, is a non-empty string of hexadecimal digits of
    either case whose value is below [2^64]; the result is then that value.
    So the prefix is optional, an empty string and a lone ["0x"] are errors,
    and so is a value of 65 bits. *)
Theorem HexToUint64_accepts (s : string) (v : Z) :
  HexToUint64 s = (v, None)
  <-> RemoveHexPrefix s <> ""%string
      /\ big.scanDigits 16 0 (RemoveHexPrefix s) = Some v
      /\ v < 2 ^ 64.
Proof.
  unfold HexToUint64, strconv.ParseUint16.
  change ((2 ^ 64 - 1) / 16 + 1) with (2 ^ 60).
  set (d := RemoveHexPrefix s). split.
  - intro H. destruct (Z.eqb_spec (strlen d) 0) as [E|Hne]; [discriminate|].
    apply ParseUint_loop_ok in H; [|vm_compute; split; congruence].
    refine (conj _ (conj (proj1 H) (proj2 (proj2 H)))).
    intro E. rewrite E in Hne. apply Hne. reflexivity.
  - intros (Hne & Hs & Hv).
    destruct (Z.eqb_spec (strlen d) 0) as [E|_].
    + destruct d; [contradiction | discriminate E].
    + apply ParseUint_loop_scan; [lia | exact Hs | exact Hv].
Qed.

Lemma HexToUint64_rejects :
  snd (HexToUint64 "") = Some strconv.ErrSyntax
  /\ snd (HexToUint64 "0x") = Some strconv.ErrSyntax
  /\ snd (HexToUint64 "0XFF") = Some strconv.ErrSyntax
  /\ HexToUint64 "0x10000000000000000" = (2 ^ 64 - 1, Some strconv.ErrRange)
  /\ HexToUint64 "FF" = (255, None).
Proof. repeat split. Qed.

(** ** StringToHex *)

Lemma AddHexPrefix_EncodeToString (src : list byte) :
  AddHexPrefix (hex.EncodeToString src)
  = ("0x" ++ hex.EncodeToString src)%string.
Proof.
  destruct (AddHexPrefix_cases (hex.EncodeToString src)) as [[Hp _]|[_ E]];
    [|exact E].
  exfalso. destruct Hp as [rest Hp].
  destruct src as [|v src]; cbn [hex.EncodeToString] in Hp;
    [destruct Hp; discriminate|].
  destruct (hex_digit_not_x (Z.land (byte.unsigned v) 15)) as [Hx HX].
  destruct Hp as [Hp|Hp]; cbn in Hp; injection Hp as _ E _;
    [apply Hx | apply HX]; exact E.
Qed.

Lemma hex_digit_inj (x y : Z) :
  0 <= x < 16 -> 0 <= y < 16 -> hex.digit x = hex.digit y -> x = y.
Proof.
  intros Hx Hy E. apply (f_equal big.digitVal) in E.
  rewrite !digitVal_hex_digit in E by assumption. congruence.
Qed.

Lemma EncodeToString_inj (l1 l2 : list byte) :
  hex.EncodeToString l1 = hex.EncodeToString l2 -> l1 = l2.
Proof.
  revert l2. induction l1 as [|a l1 IH]; intros [|b l2] E;
    cbn [hex.EncodeToString] in E; try discriminate; [reflexivity|].
  injection E as Ehi Elo Erest. f_equal; [|apply IH; exact Erest].
  apply byte.unsigned_inj.
  pose proof (byte.unsigned_range a) as Ra.
  pose proof (byte.unsigned_range b) as Rb.
  change (2 ^ 8) with 256 in *.
  rewrite !Z.shiftr_div_pow2 in Ehi by lia. change (2 ^ 4) with 16 in Ehi.
  change 15 with (Z.ones 4) in Elo. rewrite !Z.land_ones in Elo by lia.
  change (2 ^ 4) with 16 in Elo.
  pose proof (Z.mod_pos_bound (byte.unsigned a) 16 eq_refl).
  pose proof (Z.mod_pos_bound (byte.unsigned b) 16 eq_refl).
  pose proof (Z.div_mod (byte.unsigned a) 16 ltac:(discriminate)).
  pose proof (Z.div_mod (byte.unsigned b) 16 ltac:(discriminate)).
  apply hex_digit_inj in Elo; [|assumption|assumption].
  apply hex_digit_inj in Ehi; [lia | |];
    (split; [apply Z.div_pos; lia | apply Z.div_lt_upper_bound; lia]).
Qed.

Lemma strlen_EncodeToString (src : list byte) :
  strlen (hex.EncodeToString src) = 2 * len src.
Proof.
  unfold strlen, len. induction src as [|v src IH]; [reflexivity|].
  cbn [hex.EncodeToString String.length List.length]. lia.
Qed.

(** X17. [StringToHex] always puts exactly one ["0x"] in front of the
    hexadecimal digits of the bytes of its argument, also when the argument
    is empty or itself starts with ["0x"]: the result has
    [2 + 2 * len] characters, [HasHexPrefix] accepts it, [RemoveHexPrefix]
    gives the digits back, and two different strings give different
    results. *)
Theorem StringToHex_spec (s : string) :
  StringToHex s
  = ("0x" ++ hex.EncodeToString (list_byte_of_string s))%string
  /\ strlen (StringToHex s) = 2 + 2 * strlen s
  /\ HasHexPrefix (StringToHex s) = true
  /\ RemoveHexPrefix (StringToHex s)
     = hex.EncodeToString (list_byte_of_string s)
  /\ (forall s', StringToHex s = StringToHex s' -> s = s').
Proof.
  assert (E : forall x, StringToHex x
                        = ("0x" ++ hex.EncodeToString (list_byte_of_string x))%string)
    by (intro x; apply AddHexPrefix_EncodeToString).
  rewrite E. refine (conj eq_refl (conj _ (conj _ (conj _ _)))).
  - rewrite strlen_append, strlen_EncodeToString. unfold len, strlen.
    rewrite length_list_byte_of_string. reflexivity.
  - apply HasHexPrefix_0x.
  - apply RemoveHexPrefix_0x.
  - intros s' H. rewrite E in H. cbn [String.append] in H.
    injection H as H. apply EncodeToString_inj in H.
    rewrite <- (string_of_list_byte_of_string s),
            <- (string_of_list_byte_of_string s'), H.
    reflexivity.
Qed.

(** ** MaxUint64 and MaxInt *)

Lemma fold_max (l : list Z) (acc : Z) :
  acc <= fold_left (fun max n => if n >? max then n else max) l acc
  /\ (forall n, In n l ->
        n <= fold_left (fun max n => if n >? max then n else max) l acc)
  /\ (fold_left (fun max n => if n >? max then n else max) l acc = acc
      \/ In (fold_left (fun max n => if n >? max then n else max) l acc) l).
Proof.
  revert acc. induction l as [|x l IH]; intro acc; cbn [fold_left In].
  - split; [lia|]. split; [intros n []|]. left. reflexivity.
  - destruct (Z.gtb_spec x acc) as [Hgt|Hle].
    + destruct (IH x) as (H1 & H2 & H3).
      split; [lia|]. split.
      * intros n [<-|Hn]; [exact H1 | apply H2; exact Hn].
      * right. destruct H3 as [->|H3]; [left; reflexivity | right; exact H3].
    + destruct (IH acc) as (H1 & H2 & H3).
      split; [exact H1|]. split.
      * intros n [<-|Hn]; [lia | apply H2; exact Hn].
      * destruct H3 as [H3|H3]; [left; exact H3 | right; right; exact H3].
Qed.

(** X18. [MaxInt] starts from 0, so it returns the largest of 0 and the
    integers it is given: the result is never negative, is at least every
    argument, and is one of the arguments or 0; when every argument is
    negative (or there is none) it returns 0, which is then not one of
    them. *)
Theorem MaxInt_spec (ints : list Z) :
  0 <= MaxInt ints
  /\ (forall n, In n ints -> n <= MaxInt ints)
  /\ (MaxInt ints = 0 \/ In (MaxInt ints) ints)
  /\ ((forall n, In n ints -> n < 0) ->
      MaxInt ints = 0 /\ ~ In (MaxInt ints) ints).
Proof.
  unfold MaxInt. destruct (fold_max ints 0) as (H1 & H2 & H3).
  refine (conj H1 (conj H2 (conj H3 _))).
  intro Hneg. destruct H3 as [H3|H3].
  - split; [exact H3|]. rewrite H3. intro Hin. apply Hneg in Hin. lia.
  - apply Hneg in H3. lia.
Qed.

Lemma MaxInt_spec_witness :
  (forall n, In n [-5; -3] -> n < 0)
  /\ MaxInt [-5; -3] = 0
  /\ ~ In (MaxInt [-5; -3]) [-5; -3].
Proof.
  assert (H : forall n, In n [-5; -3] -> n < 0)
    by (intros n [<-|[<-|[]]]; reflexivity).
  split; [exact H|]. exact (proj2 (proj2 (proj2 (MaxInt_spec _))) H).
Defined.

(** X19. For [uint64] arguments [MaxUint64] returns 0 for no argument and
    otherwise the largest argument: a value of the list that no other
    exceeds. *)
Theorem MaxUint64_spec (uints : list Z) :
  Forall (fun n => 0 <= n < 2 ^ 64) uints ->
  0 <= MaxUint64 uints < 2 ^ 64
  /\ (forall n, In n uints -> n <= MaxUint64 uints)
  /\ (uints = [] -> MaxUint64 uints = 0)
  /\ (uints <> [] -> In (MaxUint64 uints) uints).
Proof.
  intro Hr. rewrite Forall_forall in Hr. unfold MaxUint64.
  destruct (fold_max uints 0) as (H1 & H2 & H3).
  refine (conj _ (conj H2 (conj _ _))).
  - split; [exact H1|]. destruct H3 as [->|H3]; [reflexivity|].
    apply Hr in H3. lia.
  - intros ->. reflexivity.
  - intro Hne. destruct H3 as [H3|H3]; [|exact H3].
    destruct uints as [|x l]; [contradiction|]. rewrite H3.
    pose proof (H2 x (or_introl eq_refl)) as Hx.
    pose proof (Hr x (or_introl eq_refl)) as Hx0.
    left. lia.
Qed.

Lemma MaxUint64_spec_witness :
  Forall (fun n => 0 <= n < 2 ^ 64) [3; 9; 2]
  /\ MaxUint64 [3; 9; 2] = 9
  /\ In (MaxUint64 [3; 9; 2]) [3; 9; 2].
Proof.
  assert (H : Forall (fun n => 0 <= n < 2 ^ 64) [3; 9; 2])
    by (repeat (apply Forall_cons; [vm_compute; split; congruence|]);
        apply Forall_nil).
  refine (conj H (conj eq_refl _)).
  apply (MaxUint64_spec _ H). discriminate.
Defined.

(** ** IsQuoted and RemoveQuotes *)

Lemma index_last (a : byte) (inner : list byte) (z : byte) :
  index (a :: inner ++ [z]) (len (a :: inner ++ [z]) - 1) = z.
Proof.
  unfold index, len. cbn [List.length]. rewrite length_app. cbn [List.length].
  replace (Z.to_nat (Z.of_nat (S (List.length inner + 1)) - 1))
    with (S (List.length inner)) by lia.
  cbn [nth]. rewrite app_nth2 by lia. rewrite Nat.sub_diag. reflexivity.
Qed.

Lemma IsQuoted_wrapped (a : byte) (inner : list byte) (z : byte) :
  IsQuoted (a :: inner ++ [z])
  = (Byte.eqb a dquote && Byte.eqb z dquote)
    || (Byte.eqb a squote && Byte.eqb z squote).
Proof.
  unfold IsQuoted. rewrite index_last. change (index (a :: inner ++ [z]) 0) with a.
  unfold len. cbn [List.length]. rewrite length_app. cbn [List.length].
  destruct (Z.geb_spec (Z.of_nat (S (List.length inner + 1))) 2); [|lia].
  reflexivity.
Qed.

Lemma two_or_more (input : list byte) :
  2 <= len input -> exists a inner z, input = a :: inner ++ [z].
Proof.
  unfold len. intro H. destruct input as [|a rest]; [cbn in H; lia|].
  destruct (exists_last (l := rest)) as (inner & z & ->).
  - intros ->. cbn in H. lia.
  - exists a, inner, z. reflexivity.
Qed.

(** X20. [IsQuoted] holds exactly for the slices made of a quote character,
    any content, and the same quote character again (both double or both
    single: a lone quote and two different quotes are not quoted).
    [RemoveQuotes] then returns the content, taking off one pair only, and
    returns any other slice unchanged. *)
Theorem quotes_spec (input : list byte) :
  (IsQuoted input = true
   <-> exists q inner,
         (q = dquote \/ q = squote) /\ input = q :: inner ++ [q])
  /\ (forall q inner,
         (q = dquote \/ q = squote) ->
         input = q :: inner ++ [q] ->
         RemoveQuotes input = inner)
  /\ (IsQuoted input = false -> RemoveQuotes input = input).
Proof.
  assert (W : forall q inner,
             (q = dquote \/ q = squote) -> IsQuoted (q :: inner ++ [q]) = true).
  { intros q inner [->| ->]; rewrite IsQuoted_wrapped; reflexivity. }
  refine (conj _ (conj _ _)).
  - split.
    + intro H.
      assert (Hl : 2 <= len input).
      { unfold IsQuoted in H. destruct (Z.geb_spec (len input) 2); [lia|].
        discriminate. }
      destruct (two_or_more input Hl) as (a & inner & z & ->).
      rewrite IsQuoted_wrapped in H.
      apply orb_true_iff in H.
      destruct H as [H|H]; apply andb_true_iff in H; destruct H as [Ha Hz];
        apply Byte.byte_dec_bl in Ha; apply Byte.byte_dec_bl in Hz; subst a z.
      * exists dquote, inner. split; [left|]; reflexivity.
      * exists squote, inner. split; [right|]; reflexivity.
    + intros (q & inner & Hq & ->). apply W. exact Hq.
  - intros q inner Hq ->. unfold RemoveQuotes. rewrite (W q inner Hq).
    unfold len. cbn [List.length skipn]. rewrite length_app. cbn [List.length].
    replace (Z.to_nat (Z.of_nat (S (List.length inner + 1)) - 1 - 1))
      with (List.length inner + 0)%nat by lia.
    rewrite firstn_app_2. cbn [firstn]. apply app_nil_r.
  - intro H. unfold RemoveQuotes. rewrite H. reflexivity.
Qed.

Lemma quotes_spec_witness :
  (squote = dquote \/ squote = squote)
  /\ RemoveQuotes [squote; dquote; Byte.x61; dquote; squote]
     = [dquote; Byte.x61; dquote]
  /\ RemoveQuotes [squote; Byte.x61; dquote] = [squote; Byte.x61; dquote].
Proof.
  assert (H : squote = dquote \/ squote = squote) by (right; reflexivity).
  refine (conj H (conj _ eq_refl)).
  exact (proj1 (proj2 (quotes_spec _)) squote [dquote; Byte.x61; dquote]
           H eq_refl).
Defined.

(** ** WithoutZeroAddresses *)

Lemma Address_eqb_eq (a b : Address) : Address_eqb a b = true <-> a = b.
Proof.
  unfold Address_eqb. destruct (list_eq_dec Byte.byte_eq_dec a b);
    split; congruence.
Qed.

Lemma WithoutZeroAddresses_from (addresses acc : list Address) :
  fold_left
    (fun withoutZeros address =>
       if negb (Address_eqb address ZeroAddress)
       then withoutZeros ++ [address]
       else withoutZeros)
    addresses acc
  = acc ++ filter (fun a => negb (Address_eqb a ZeroAddress)) addresses.
Proof.
  revert acc. induction addresses as [|a l IH]; intro acc;
    cbn [fold_left filter].
  - now rewrite app_nil_r.
  - rewrite IH. destruct (negb (Address_eqb a ZeroAddress));
      [rewrite <- app_assoc|]; reflexivity.
Qed.

Lemma WithoutZeroAddresses_filter (addresses : list Address) :
  WithoutZeroAddresses addresses
  = filter (fun a => negb (Address_eqb a ZeroAddress)) addresses.
Proof. apply (WithoutZeroAddresses_from addresses []). Qed.

(** X21. [WithoutZeroAddresses] keeps exactly the addresses that are not the
    zero address, in their order and with their repetitions: an address is in
    the result when it is in the argument and is not zero, so
    [IsEmptyAddress] fails for each of them; a list without the zero address
    is returned as it is, the function distributes over a concatenation, and
    applying it twice changes nothing more. The addresses of
    [ToFilterQueryFor] are this result. *)
Theorem WithoutZeroAddresses_spec (addresses : list Address) :
  (forall a, In a (WithoutZeroAddresses addresses)
             <-> In a addresses /\ a <> ZeroAddress)
  /\ (forall a, In a (WithoutZeroAddresses addresses) -> IsEmptyAddress a = false)
  /\ (~ In ZeroAddress addresses -> WithoutZeroAddresses addresses = addresses)
  /\ (forall more,
         WithoutZeroAddresses (addresses ++ more)
         = WithoutZeroAddresses addresses ++ WithoutZeroAddresses more)
  /\ WithoutZeroAddresses (WithoutZeroAddresses addresses)
     = WithoutZeroAddresses addresses
  /\ (forall fromBlock,
         Addresses (ToFilterQueryFor fromBlock addresses)
         = WithoutZeroAddresses addresses
         /\ FromBlock (ToFilterQueryFor fromBlock addresses) = fromBlock).
Proof.
  assert (M : forall l a, In a (WithoutZeroAddresses l)
                          <-> In a l /\ a <> ZeroAddress).
  { intros l a. rewrite WithoutZeroAddresses_filter, filter_In.
    rewrite negb_true_iff. split; intros [H1 H2]; (split; [exact H1|]).
    - intro E. apply (proj2 (Address_eqb_eq a ZeroAddress)) in E. congruence.
    - destruct (Address_eqb a ZeroAddress) eqn:E; [|reflexivity].
      apply Address_eqb_eq in E. contradiction. }
  assert (N : forall l, ~ In ZeroAddress l -> WithoutZeroAddresses l = l).
  { intros l Hn. rewrite WithoutZeroAddresses_filter.
    induction l as [|a l IH]; [reflexivity|]. cbn [filter].
    destruct (Address_eqb a ZeroAddress) eqn:E.
    - apply Address_eqb_eq in E. subst a. exfalso. apply Hn. left. reflexivity.
    - cbn [negb]. f_equal. apply IH. intro H. apply Hn. right. exact H. }
  refine (conj (M addresses) (conj _ (conj (N addresses) (conj _ (conj _ _))))).
  - intros a Ha. apply M in Ha. destruct Ha as [_ Hz]. unfold IsEmptyAddress.
    destruct (Address_eqb a ZeroAddress) eqn:E; [|reflexivity].
    apply Address_eqb_eq in E. contradiction.
  - intro more. rewrite !WithoutZeroAddresses_filter. apply filter_app.
  - apply N. intro H. apply M in H. destruct H as [_ H]. apply H. reflexivity.
  - intro fromBlock. split; reflexivity.
Qed.

Lemma WithoutZeroAddresses_spec_witness :
  ~ In ZeroAddress [repeat Byte.x01 20; repeat Byte.x02 20]
  /\ WithoutZeroAddresses [repeat Byte.x01 20; repeat Byte.x02 20]
     = [repeat Byte.x01 20; repeat Byte.x02 20]
  /\ WithoutZeroAddresses [ZeroAddress; repeat Byte.x01 20; ZeroAddress]
     = [repeat Byte.x01 20].
Proof.
  assert (H : ~ In ZeroAddress [repeat Byte.x01 20; repeat Byte.x02 20])
    by (intros [E|[E|[]]]; discriminate E).
  refine (conj H (conj _ eq_refl)).
  exact (proj1 (proj2 (proj2 (WithoutZeroAddresses_spec _))) H).
Defined.

(** ** Strings as integers: the prefix and the digits *)

Lemma SetString_unsigned (c : ascii) (r : string) (base : Z) :
  c <> "-"%char -> c <> "+"%char ->
  big.SetString (String.String c r) base
  = big.scanDigits base 0 (String.String c r).
Proof.
  intros Hm Hp.
  assert (E : big.SetString (String.String c r) base
              = option_map (fun m => m)
                  (big.scanDigits base 0 (String.String c r))).
  { destruct c as [[] [] [] [] [] [] [] []];
      first [reflexivity
            | exfalso; apply Hm; reflexivity
            | exfalso; apply Hp; reflexivity]. }
  rewrite E. destruct (big.scanDigits base 0 (String.String c r)); reflexivity.
Qed.

Lemma digitVal_lower (c : ascii) :
  big.digitVal (strings.lower c) = big.digitVal c.
Proof. destruct c as [[] [] [] [] [] [] [] []]; reflexivity. Qed.

Lemma lower_sign (c : ascii) :
  (strings.lower c = "-"%char <-> c = "-"%char)
  /\ (strings.lower c = "+"%char <-> c = "+"%char).
Proof.
  split; (split; [|intros ->; reflexivity]);
    destruct c as [[] [] [] [] [] [] [] []]; cbv; intro H;
    first [reflexivity | discriminate H].
Qed.

Lemma scanDigits_ToLower (s : string) (base acc : Z) :
  big.scanDigits base acc (strings.ToLower s) = big.scanDigits base acc s.
Proof.
  revert acc. induction s as [|c r IH]; intro acc; [reflexivity|].
  cbn [strings.ToLower big.scanDigits]. rewrite digitVal_lower.
  destruct (big.digitVal c) as [d|]; [|reflexivity].
  destruct (d <? base); [apply IH | reflexivity].
Qed.

Lemma SetString_signed (r : string) (base : Z) :
  big.SetString (String.String "-" r) base
  = match r with
    | EmptyString => None
    | _ => option_map Z.opp (big.scanDigits base 0 r)
    end
  /\ big.SetString (String.String "+" r) base
     = match r with
       | EmptyString => None
       | _ => option_map (fun m => m) (big.scanDigits base 0 r)
       end.
Proof. split; reflexivity. Qed.

Lemma SetString_ToLower (s : string) (base : Z) :
  big.SetString (strings.ToLower s) base = big.SetString s base.
Proof.
  destruct s as [|c r]; [reflexivity|].
  destruct (ascii_dec c "-") as [->|Hm]; [|destruct (ascii_dec c "+") as [->|Hp]].
  - change (strings.ToLower (String.String "-" r))
      with (String.String "-" (strings.ToLower r)).
    rewrite !(proj1 (SetString_signed _ base)), scanDigits_ToLower.
    destruct r; reflexivity.
  - change (strings.ToLower (String.String "+" r))
      with (String.String "+" (strings.ToLower r)).
    rewrite !(proj2 (SetString_signed _ base)), scanDigits_ToLower.
    destruct r; reflexivity.
  - cbn [strings.ToLower]. destruct (lower_sign c) as [Lm Lp].
    rewrite !SetString_unsigned; try assumption;
      [| intro E; apply Hm, Lm, E | intro E; apply Hp, Lp, E].
    exact (scanDigits_ToLower (String.String c r) base 0).
Qed.

Lemma parseString_0x (digits : string) :
  parseString ("0x" ++ digits) = big.SetString digits 16.
Proof.
  unfold parseString. rewrite HasHexPrefix_0x, RemoveHexPrefix_0x. reflexivity.
Qed.

Lemma parseString_0X (rest : string) : parseString ("0X" ++ rest) = None.
Proof.
  unfold parseString. rewrite HasHexPrefix_0X. reflexivity.
Qed.

Lemma transcoders_parse (arch : float64.Arch) (str : string) (num : float) :
  EVMTranscodeUint256 arch (gjson.mkResult gjson.String str num)
  = match parseString str with
    | Some v => EVMWordBigInt v
    | None => ([], Some (ErrParsing str))
    end
  /\ EVMTranscodeInt256 arch (gjson.mkResult gjson.String str num)
     = match parseString str with
       | Some v => EVMWordSignedBigInt v
       | None => ([], Some (ErrParsing str))
       end.
Proof.
  unfold EVMTranscodeUint256, EVMTranscodeInt256. cbn [gjson.Typ gjson.Str].
  destruct (parseString str); split; reflexivity.
Qed.

(** X22. [EVMTranscodeUint256] and [EVMTranscodeInt256] read a string that
    starts with the lower-case ["0x"] in base 16 and any string without that
    prefix in base 10: the result is what [EVMWordBigInt], or
    [EVMWordSignedBigInt], returns for the integer read, and the error
    "error parsing" when there is none. The case of the hexadecimal digits
    does not matter: lower-casing them gives the same bytes, and an error
    when and only when the string as written gives one. A string that
    starts with the upper-case ["0X"] is never a number, nor is the empty
    string or a lone ["0x"]: both transcoders return "error parsing". *)
Theorem transcoders_read_strings
  (arch : float64.Arch) (rest : string) (num : float) :
  (EVMTranscodeUint256 arch (gjson.mkResult gjson.String ("0x" ++ rest) num)
   = match big.SetString rest 16 with
     | Some v => EVMWordBigInt v
     | None => ([], Some (ErrParsing ("0x" ++ rest)))
     end
   /\ EVMTranscodeInt256 arch (gjson.mkResult gjson.String ("0x" ++ rest) num)
      = match big.SetString rest 16 with
        | Some v => EVMWordSignedBigInt v
        | None => ([], Some (ErrParsing ("0x" ++ rest)))
        end)
  /\ (HasHexPrefix rest = false ->
      EVMTranscodeUint256 arch (gjson.mkResult gjson.String rest num)
      = match big.SetString rest 10 with
        | Some v => EVMWordBigInt v
        | None => ([], Some (ErrParsing rest))
        end
      /\ EVMTranscodeInt256 arch (gjson.mkResult gjson.String rest num)
         = match big.SetString rest 10 with
           | Some v => EVMWordSignedBigInt v
           | None => ([], Some (ErrParsing rest))
           end)
  /\ (forall transcode,
         transcode = EVMTranscodeUint256 \/ transcode = EVMTranscodeInt256 ->
         fst (transcode arch
                (gjson.mkResult gjson.String ("0x" ++ strings.ToLower rest) num))
         = fst (transcode arch
                  (gjson.mkResult gjson.String ("0x" ++ rest) num))
         /\ (snd (transcode arch
                    (gjson.mkResult gjson.String
                       ("0x" ++ strings.ToLower rest) num)) = None
             <-> snd (transcode arch
                        (gjson.mkResult gjson.String ("0x" ++ rest) num))
                 = None))
  /\ (forall str,
         str = ("0X" ++ rest)%string \/ str = ""%string \/ str = "0x"%string ->
         EVMTranscodeUint256 arch (gjson.mkResult gjson.String str num)
         = ([], Some (ErrParsing str))
         /\ EVMTranscodeInt256 arch (gjson.mkResult gjson.String str num)
            = ([], Some (ErrParsing str))).
Proof.
  refine (conj _ (conj _ (conj _ _))).
  - destruct (transcoders_parse arch ("0x" ++ rest) num) as [U I].
    rewrite U, I, parseString_0x. split; reflexivity.
  - intro H. destruct (transcoders_parse arch rest num) as [U I].
    rewrite U, I. unfold parseString. rewrite H. split; reflexivity.
  - intros transcode Ht.
    destruct (transcoders_parse arch ("0x" ++ strings.ToLower rest) num)
      as [Ul Il].
    destruct (transcoders_parse arch ("0x" ++ rest) num) as [U I].
    assert (E : parseString ("0x" ++ strings.ToLower rest)
                = parseString ("0x" ++ rest))
      by (rewrite !parseString_0x; apply SetString_ToLower).
    destruct Ht as [-> | ->].
    + rewrite Ul, U, E. destruct (parseString ("0x" ++ rest));
        split; reflexivity || (split; discriminate).
    + rewrite Il, I, E. destruct (parseString ("0x" ++ rest));
        split; reflexivity || (split; discriminate).
  - intros str Hs. destruct (transcoders_parse arch str num) as [U I].
    rewrite U, I.
    assert (E : parseString str = None)
      by (destruct Hs as [-> | [-> | ->]];
          [apply parseString_0X | reflexivity | reflexivity]).
    rewrite E. split; reflexivity.
Qed.

Lemma transcoders_read_strings_witness :
  HasHexPrefix "26" = false
  /\ EVMTranscodeUint256 float64.saturating
       (gjson.mkResult gjson.String "26" 0) = EVMWordBigInt 26
  /\ EVMTranscodeInt256 float64.saturating
       (gjson.mkResult gjson.String "26" 0) = EVMWordSignedBigInt 26
  /\ EVMTranscodeUint256 float64.saturating
       (gjson.mkResult gjson.String "0x1A" 0) = EVMWordBigInt 26
  /\ EVMTranscodeInt256 float64.saturating
       (gjson.mkResult gjson.String "0x1A" 0) = EVMWordSignedBigInt 26.
Proof.
  assert (H : HasHexPrefix "26" = false) by reflexivity.
  destruct (proj1 (proj2 (transcoders_read_strings float64.saturating "26" 0)) H)
    as [U I].
  destruct (proj1 (transcoders_read_strings float64.saturating "1A" 0))
    as [Ux Ix].
  refine (conj H (conj _ (conj _ (conj _ _)))).
  - rewrite U. reflexivity.
  - rewrite I. reflexivity.
  - exact Ux.
  - exact Ix.
Defined.

Lemma hex_digit_not_sign (y : Z) :
  hex.digit y <> "-"%char /\ hex.digit y <> "+"%char.
Proof.
  unfold hex.digit. generalize (Z.to_nat y) as k. intro k.
  do 16 (destruct k as [|k]; [split; discriminate|]).
  split; discriminate.
Qed.

Lemma SetString_hex_loop (fuel : nat) (u : Z) :
  0 <= u < 16 ^ Z.of_nat (S fuel) ->
  big.SetString (fmt.hex_loop fuel u "") 16 = Some u.
Proof.
  intro H.
  assert (Hs : big.SetString (fmt.hex_loop fuel u "") 16
               = big.scanDigits 16 0 (fmt.hex_loop fuel u "")).
  { destruct (hex_loop_head fuel u "") as [[a ->]|(a & b & rest & ->)];
      apply SetString_unsigned; apply hex_digit_not_sign. }
  rewrite Hs, scanDigits_hex_loop by exact H. reflexivity.
Qed.

Lemma pow2_le_pow16 (n : Z) : 0 <= n -> 2 ^ n <= 16 ^ (n + 1).
Proof.
  intro H. change 16 with (2 ^ 4). rewrite <- Z.pow_mul_r by lia.
  apply Z.pow_le_mono_r; lia.
Qed.

(** X23. The hexadecimal strings the package writes are numbers to its
    transcoders: for a [uint64] [u], [EVMTranscodeUint256] turns the string
    [Uint64ToHex u] into the word of [u] (the word [EVMWordUint64 u]), and
    for a block number [n >= 0] the string [hexutil.EncodeBig] gives for
    [toBlockNumArg] is read back as [n]. *)
Theorem hex_strings_transcode (arch : float64.Arch) (num : float) :
  (forall u, 0 <= u < 2 ^ 64 ->
     parseString (Uint64ToHex u) = Some u
     /\ EVMTranscodeUint256 arch (gjson.mkResult gjson.String (Uint64ToHex u) num)
        = (EVMWordUint64 u, None))
  /\ (forall n, 0 <= n -> parseString (toBlockNumArg (Some n)) = Some n).
Proof.
  split.
  - intros u Hu.
    assert (P : parseString (Uint64ToHex u) = Some u).
    { unfold Uint64ToHex. rewrite parseString_0x.
      apply (SetString_hex_loop 15). change (16 ^ Z.of_nat 16) with (2 ^ 64).
      exact Hu. }
    split; [exact P|]. unfold EVMTranscodeUint256. cbn [gjson.Typ gjson.Str].
    rewrite P. apply EVMWordBigInt_is_Uint64. exact Hu.
  - intros n Hn. unfold toBlockNumArg, hexutil.EncodeBig.
    destruct (Z.eqb_spec (big.BitLen n) 0) as [E|Hne].
    + assert (n = 0).
      { pose proof (abs_lt_pow2_BitLen n) as A. rewrite E in A.
        change (2 ^ 0) with 1 in A. lia. }
      subst n. reflexivity.
    + destruct (Z.ltb_spec n 0); [lia|].
      rewrite parseString_0x. rewrite Z.abs_eq by lia.
      apply SetString_hex_loop. split; [lia|].
      pose proof (BitLen_nonneg n) as Hb.
      pose proof (abs_lt_pow2_BitLen n) as A. rewrite Z.abs_eq in A by lia.
      rewrite Nat2Z.inj_succ, Z2Nat.id by lia.
      pose proof (pow2_le_pow16 (big.BitLen n) Hb). lia.
Qed.

Lemma hex_strings_transcode_witness :
  0 <= 26 < 2 ^ 64
  /\ Uint64ToHex 26 = "0x1a"%string
  /\ EVMTranscodeUint256 float64.saturating
       (gjson.mkResult gjson.String (Uint64ToHex 26) 0)
     = (EVMWordUint64 26, None).
Proof.
  assert (H : 0 <= 26 < 2 ^ 64) by (vm_compute; split; congruence).
  refine (conj H (conj eq_refl _)).
  exact (proj2 (proj1 (hex_strings_transcode float64.saturating 0) 26 H)).
Defined.

(** ** ToFilterArg *)

Lemma EncodeBig_not_latest (n : Z) : hexutil.EncodeBig n <> "latest"%string.
Proof.
  unfold hexutil.EncodeBig. destruct (big.BitLen n =? 0); [discriminate|].
  destruct (n <? 0); discriminate.
Qed.

(** X24. The map [ToFilterArg] builds has the four keys ["fromBlock"],
    ["toBlock"], ["address"] and ["topics"] and no other. A nil [ToBlock]
    gives ["latest"], and only a nil one does; a nil [FromBlock] gives
    ["0x0"], never ["latest"], so the map is the same for a nil [FromBlock]
    and for block 0. The addresses and topics are those of the query. *)
Theorem ToFilterArg_spec (q : FilterQuery) :
  (forall k, map_get k (ToFilterArg q) <> None
             <-> In k ["fromBlock"; "toBlock"; "address"; "topics"]%string)
  /\ map_get "fromBlock" (ToFilterArg q)
     = Some (ArgString (match FromBlock q with
                        | None => "0x0"%string
                        | Some n => hexutil.EncodeBig n
                        end))
  /\ map_get "fromBlock" (ToFilterArg q) <> Some (ArgString "latest")
  /\ (map_get "toBlock" (ToFilterArg q) = Some (ArgString "latest")
      <-> ToBlock q = None)
  /\ (forall n, ToBlock q = Some n ->
        map_get "toBlock" (ToFilterArg q)
        = Some (ArgString (hexutil.EncodeBig n)))
  /\ map_get "address" (ToFilterArg q) = Some (ArgAddresses (Addresses q))
  /\ map_get "topics" (ToFilterArg q) = Some (ArgTopics (Topics q))
  /\ (FromBlock q = None ->
      ToFilterArg q
      = ToFilterArg (mkFilterQuery (Some 0) (ToBlock q) (Addresses q) (Topics q))).
Proof.
  destruct q as [fb tb addrs topics]. cbn [FromBlock ToBlock Addresses Topics].
  assert (K : forall (k : string) (a b c d : FilterArg),
             map_get k [("fromBlock"%string, a); ("toBlock"%string, b);
                        ("address"%string, c); ("topics"%string, d)] <> None
             <-> In k ["fromBlock"; "toBlock"; "address"; "topics"]%string).
  { intros k a b c d. cbn [map_get In].
    destruct (String.eqb_spec k "fromBlock");
      [split; [intros _; left; congruence | discriminate]|].
    destruct (String.eqb_spec k "toBlock");
      [split; [intros _; right; left; congruence | discriminate]|].
    destruct (String.eqb_spec k "address");
      [split; [intros _; right; right; left; congruence | discriminate]|].
    destruct (String.eqb_spec k "topics");
      [split; [intros _; right; right; right; left; congruence | discriminate]|].
    split; [intro H; contradiction|].
    intros [E|[E|[E|[E|[]]]]]; congruence. }
  refine (conj _ (conj _ (conj _ (conj _ (conj _ (conj _ (conj _ _))))))).
  - intro k. destruct fb; apply K.
  - destruct fb; reflexivity.
  - destruct fb as [n|]; cbn; [|discriminate].
    intro E. injection E as E. exact (EncodeBig_not_latest n E).
  - destruct fb, tb as [n|]; cbn; split; try discriminate; try reflexivity;
      intro E; injection E as E; destruct (EncodeBig_not_latest n E).
  - intros n ->. destruct fb; reflexivity.
  - destruct fb; reflexivity.
  - destruct fb; reflexivity.
  - intros ->. reflexivity.
Qed.

Lemma ToFilterArg_spec_witness :
  FromBlock (ToFilterQueryFor None []) = None
  /\ ToFilterArg (ToFilterQueryFor None [])
     = [ ("fromBlock", ArgString "0x0"); ("toBlock", ArgString "latest");
         ("address", ArgAddresses []); ("topics", ArgTopics []) ]%string
  /\ ToFilterArg (ToFilterQueryFor None [])
     = ToFilterArg (ToFilterQueryFor (Some 0) []).
Proof.
  assert (H : FromBlock (ToFilterQueryFor None []) = None) by reflexivity.
  refine (conj H (conj eq_refl _)).
  exact (proj2 (proj2 (proj2 (proj2 (proj2 (proj2 (proj2
           (ToFilterArg_spec _))))))) H).
Defined.

(** ** Reading the content of a [bytes] encoding back *)

Lemma skipn_app_exact {A : Type} (a b : list A) (n : nat) :
  List.length a = n -> skipn n (a ++ b) = b.
Proof.
  intros <-. rewrite skipn_app, skipn_all, Nat.sub_diag. reflexivity.
Qed.

Lemma firstn_app_exact {A : Type} (a b : list A) (n : nat) :
  List.length a = n -> firstn n (a ++ b) = a.
Proof.
  intros <-. rewrite firstn_app, firstn_all, Nat.sub_diag, firstn_O.
  apply app_nil_r.
Qed.

Lemma decode_bytes_layout (length content padding : list byte) (n : Z) :
  List.length length = 32%nat ->
  be_decode length = len content ->
  decode_bytes (EVMWordUint64 n ++ length ++ content ++ padding) = content.
Proof.
  intros Hl Hd. unfold decode_bytes.
  rewrite (skipn_app_exact (EVMWordUint64 n)) by reflexivity.
  rewrite (firstn_app_exact length) by exact Hl. rewrite Hd.
  rewrite app_assoc, (skipn_app_exact (EVMWordUint64 n ++ length))
    by (rewrite length_app, Hl; reflexivity).
  apply firstn_app_exact. unfold len. lia.
Qed.

Lemma decode_bytes_word (length content : list byte) (n : Z) :
  List.length length = 32%nat ->
  be_decode length = len content ->
  decode_bytes (EVMWordUint64 n ++ length ++ content) = content.
Proof.
  intros Hl Hd. rewrite <- (app_nil_r content) at 1.
  apply decode_bytes_layout; assumption.
Qed.

(** X25. The ["bytes"] encoding of a string can be read back: the second
    word gives the length, and that many bytes after the first two words are
    the bytes of the string; what follows them is only zero bytes. So two
    different strings have different encodings. For a boolean or a number
    the content read back is the single word of the value. *)
Theorem EVMTranscodeBytes_roundtrip
  (arch : float64.Arch) (value : gjson.Result) :
  (gjson.Typ value = gjson.String ->
   strlen (gjson.Str value) <= MaxInt64 ->
   decode_bytes (fst (EVMTranscodeBytes arch value))
   = list_byte_of_string (gjson.Str value)
   /\ string_of_list_byte (decode_bytes (fst (EVMTranscodeBytes arch value)))
      = gjson.Str value
   /\ skipn (64 + String.length (gjson.Str value))
        (fst (EVMTranscodeBytes arch value))
      = repeat Byte.x00 (Z.to_nat (32 - strlen (gjson.Str value) mod 32)))
  /\ (gjson.Typ value = gjson.True \/ gjson.Typ value = gjson.False ->
      decode_bytes (fst (EVMTranscodeBytes arch value))
      = fst (EVMTranscodeBool value))
  /\ (gjson.Typ value = gjson.Number ->
      decode_bytes (fst (EVMTranscodeBytes arch value))
      = fst (EVMTranscodeInt256 arch value)).
Proof.
  refine (conj _ (conj _ _)).
  - intros Ht Hlen. rewrite (EVMTranscodeBytes_String_branch arch value Ht).
    cbn [fst].
    assert (Hn : 0 <= strlen (gjson.Str value) < 2 ^ 64).
    { unfold strlen, MaxInt64 in *. split; [lia|].
      apply Z.le_lt_trans with (2 ^ 63 - 1); [exact Hlen | reflexivity]. }
    assert (D : decode_bytes
                  (EVMWordUint64 64
                     ++ EVMWordUint64 (to_uint64 (strlen (gjson.Str value)))
                     ++ list_byte_of_string (gjson.Str value)
                     ++ repeat Byte.x00
                          (Z.to_nat (32 - strlen (gjson.Str value) mod 32)))
                = list_byte_of_string (gjson.Str value)).
    { apply decode_bytes_layout; [reflexivity|].
      rewrite be_decode_EVMWordUint64. unfold to_uint64.
      rewrite Z.mod_mod by discriminate. rewrite Z.mod_small by exact Hn.
      unfold len, strlen. now rewrite length_list_byte_of_string. }
    rewrite D. refine (conj eq_refl (conj _ _)).
    + apply string_of_list_byte_of_string.
    + rewrite !app_assoc. apply skipn_app_exact.
      rewrite !length_app, length_list_byte_of_string. reflexivity.
  - intros [Ht|Ht]; unfold EVMTranscodeBytes, EVMTranscodeBool; rewrite Ht;
      rewrite ConcatBytes_concat; cbn [List.concat fst];
      rewrite app_nil_r; cbn [fst];
      apply decode_bytes_word; reflexivity.
  - intro Ht. rewrite (EVMTranscodeInt256_Number_branch arch value Ht).
    destruct (EVMTranscodeBytes_Number_branch arch value Ht)
      as (word & Hw & Hl & Heq).
    rewrite Heq, Hw. cbn [fst].
    apply decode_bytes_word; [reflexivity|].
    unfold len. rewrite Hl. reflexivity.
Qed.

Lemma EVMTranscodeBytes_roundtrip_witness :
  gjson.Typ (gjson.mkResult gjson.String "hello" 0) = gjson.String
  /\ strlen "hello" <= MaxInt64
  /\ string_of_list_byte
       (decode_bytes
          (fst (EVMTranscodeBytes float64.saturating
                  (gjson.mkResult gjson.String "hello" 0))))
     = "hello"%string.
Proof.
  assert (Ht : gjson.Typ (gjson.mkResult gjson.String "hello" 0) = gjson.String)
    by reflexivity.
  assert (Hl : strlen (gjson.Str (gjson.mkResult gjson.String "hello" 0))
               <= MaxInt64) by (vm_compute; congruence).
  refine (conj Ht (conj Hl _)).
  exact (proj1 (proj2 (proj1 (EVMTranscodeBytes_roundtrip float64.saturating _)
                         Ht Hl))).
Defined.

(** ** CoerceInterfaceMapToStringMap *)

Lemma value_induction (P : value -> Prop) :
  (forall n, P (Other n)) ->
  (forall m, Forall (fun e => P (snd e)) m -> P (StringMap m)) ->
  (forall m, Forall (fun e => P (snd e)) m -> P (InterfaceMap m)) ->
  (forall l, Forall P l -> P (Slice l)) ->
  forall v, P v.
Proof.
  intros HO HS HI HL. fix IH 1. intros [n|m|m|l].
  - apply HO.
  - apply HS. induction m as [|[k x] m IHm]; constructor;
      [apply IH | exact IHm].
  - apply HI. induction m as [|[k x] m IHm]; constructor;
      [apply IH | exact IHm].
  - apply HL. induction l as [|x l IHl]; constructor; [apply IH | exact IHl].
Qed.

Section Ranges.

(** What is shown of the function on each value of a map or a slice gives
    the same for the loop over it. [Q v r] relates a value and what it is
    coerced to, [G v] says that it is coerced without error, and [B k] is
    what holds of the key of an error. *)
Variable coerce : value -> coerced.
Variable Q : value -> value -> Prop.
Variable G : value -> Prop.
Variable B : key -> Prop.
Hypothesis B_other : forall n, B (KeyOther n).

Let sound (v : value) : Prop :=
  (forall r, coerce v = Coerced r -> Q v r /\ G v)
  /\ (G v -> exists r, coerce v = Coerced r)
  /\ (forall k, coerce v = UnableToCoerce k -> B k).

Lemma range_string_map_sound (m : list (string * value)) :
  Forall (fun e => sound (snd e)) m ->
  (forall typed, range_string_map coerce m = inl typed ->
     Forall2 (fun e e' => fst e = fst e' /\ Q (snd e) (snd e')) m typed
     /\ Forall (fun e => G (snd e)) m)
  /\ (Forall (fun e => G (snd e)) m ->
      exists typed, range_string_map coerce m = inl typed)
  /\ (forall k, range_string_map coerce m = inr k -> B k).
Proof.
  induction 1 as [|[k v] m (S1 & S2 & S3) _ (I1 & I2 & I3)];
    cbn [range_string_map snd fst] in *.
  - refine (conj _ (conj _ _)).
    + intros typed E. injection E as <-. split; constructor.
    + intros _. exists []. reflexivity.
    + intros k E. discriminate.
  - refine (conj _ (conj _ _)).
    + intros typed E. destruct (coerce v) as [c|e]; [|discriminate].
      destruct (range_string_map coerce m) as [t|e]; [|discriminate].
      injection E as <-. destruct (S1 c eq_refl) as [Hq Hg].
      destruct (I1 t eq_refl) as [F2 Fg].
      split; constructor; cbn [fst snd]; auto.
    + intro Hg. inversion Hg as [|? ? Hv Hm]; subst. cbn [snd] in Hv.
      destruct (S2 Hv) as [c ->]. destruct (I2 Hm) as [t ->].
      eexists. reflexivity.
    + intros e E. destruct (coerce v) as [c|e']; [|injection E as <-; auto].
      destruct (range_string_map coerce m) as [t|e']; [discriminate|].
      injection E as <-. auto.
Qed.

Lemma range_interface_map_sound (m : list (key * value)) :
  Forall (fun e => sound (snd e)) m ->
  (forall typed, range_interface_map coerce m = inl typed ->
     Forall2 (fun e e' => fst e = KeyString (fst e') /\ Q (snd e) (snd e'))
       m typed
     /\ Forall (fun e => is_string (fst e) = true /\ G (snd e)) m)
  /\ (Forall (fun e => is_string (fst e) = true /\ G (snd e)) m ->
      exists typed, range_interface_map coerce m = inl typed)
  /\ (forall k, range_interface_map coerce m = inr k -> B k).
Proof.
  induction 1 as [|[k v] m (S1 & S2 & S3) _ (I1 & I2 & I3)];
    cbn [range_interface_map snd fst] in *.
  - refine (conj _ (conj _ _)).
    + intros typed E. injection E as <-. split; constructor.
    + intros _. exists []. reflexivity.
    + intros k E. discriminate.
  - refine (conj _ (conj _ _)).
    + intros typed E. destruct k as [s|n]; [|discriminate].
      destruct (coerce v) as [c|e]; [|discriminate].
      destruct (range_interface_map coerce m) as [t|e]; [|discriminate].
      injection E as <-. destruct (S1 c eq_refl) as [Hq Hg].
      destruct (I1 t eq_refl) as [F2 Fg].
      split; constructor; cbn [fst snd is_string]; auto.
    + intro Hg. inversion Hg as [|? ? [Hk Hv] Hm]; subst.
      cbn [fst snd] in Hk, Hv. destruct k as [s|n]; [|discriminate].
      destruct (S2 Hv) as [c ->]. destruct (I2 Hm) as [t ->].
      eexists. reflexivity.
    + intros e E. destruct k as [s|n]; [|injection E as <-; apply B_other].
      destruct (coerce v) as [c|e']; [|injection E as <-; auto].
      destruct (range_interface_map coerce m) as [t|e']; [discriminate|].
      injection E as <-. auto.
Qed.

Lemma range_slice_sound (l : list value) :
  Forall sound l ->
  (forall r, range_slice coerce l = inl r -> Forall2 Q l r /\ Forall G l)
  /\ (Forall G l -> exists r, range_slice coerce l = inl r)
  /\ (forall k, range_slice coerce l = inr k -> B k).
Proof.
  induction 1 as [|v l (S1 & S2 & S3) _ (I1 & I2 & I3)];
    cbn [range_slice] in *.
  - refine (conj _ (conj _ _)).
    + intros r E. injection E as <-. split; constructor.
    + intros _. exists []. reflexivity.
    + intros k E. discriminate.
  - refine (conj _ (conj _ _)).
    + intros r E. destruct (coerce v) as [c|e]; [|discriminate].
      destruct (range_slice coerce l) as [t|e]; [|discriminate].
      injection E as <-. destruct (S1 c eq_refl) as [Hq Hg].
      destruct (I1 t eq_refl) as [F2 Fg]. split; constructor; auto.
    + intro Hg. inversion Hg as [|? ? Hv Hm]; subst.
      destruct (S2 Hv) as [c ->]. destruct (I2 Hm) as [t ->].
      eexists. reflexivity.
    + intros e E. destruct (coerce v) as [c|e']; [|injection E as <-; auto].
      destruct (range_slice coerce l) as [t|e']; [discriminate|].
      injection E as <-. auto.
Qed.

End Ranges.

Lemma Forall2_same_entries (Q : value -> value -> Prop)
  (m typed : list (string * value)) :
  Forall2 (fun e e' => fst e = fst e' /\ Q (snd e) (snd e')) m typed ->
  (forall v r, Q v r -> string_maps_only r = true
                        /\ (string_maps_only v = true -> r = v)) ->
  forallb (fun e => string_maps_only (snd e)) typed = true
  /\ (forallb (fun e => string_maps_only (snd e)) m = true -> typed = m).
Proof.
  intros F HQ. induction F as [|[k v] [k' r] m typed [Hk Hq] _ [I1 I2]];
    cbn [forallb fst snd] in *; [split; reflexivity|].
  destruct (HQ v r Hq) as [Hr Hv]. rewrite Hr, I1. split; [reflexivity|].
  intro H. apply andb_true_iff in H. destruct H as [H1 H2].
  rewrite (Hv H1), (I2 H2), Hk. reflexivity.
Qed.

Lemma Forall2_coerced_entries (Q : value -> value -> Prop)
  (m : list (key * value)) (typed : list (string * value)) :
  Forall2 (fun e e' => fst e = KeyString (fst e') /\ Q (snd e) (snd e'))
    m typed ->
  (forall v r, Q v r -> string_maps_only r = true
                        /\ (string_maps_only v = true -> r = v)) ->
  forallb (fun e => string_maps_only (snd e)) typed = true.
Proof.
  intros F HQ. induction F as [|[k v] [k' r] m typed [Hk Hq] _ I];
    cbn [forallb fst snd] in *; [reflexivity|].
  destruct (HQ v r Hq) as [Hr _]. rewrite Hr, I. reflexivity.
Qed.

Lemma Forall2_same_elements (Q : value -> value -> Prop) (l r : list value) :
  Forall2 Q l r ->
  (forall v r, Q v r -> string_maps_only r = true
                        /\ (string_maps_only v = true -> r = v)) ->
  forallb string_maps_only r = true
  /\ (forallb string_maps_only l = true -> r = l).
Proof.
  intros F HQ. induction F as [|v x l r Hq _ [I1 I2]];
    cbn [forallb] in *; [split; reflexivity|].
  destruct (HQ v x Hq) as [Hr Hv]. rewrite Hr, I1. split; [reflexivity|].
  intro H. apply andb_true_iff in H. destruct H as [H1 H2].
  rewrite (Hv H1), (I2 H2). reflexivity.
Qed.

Lemma forallb_Forall {A : Type} (f : A -> bool) (l : list A) :
  forallb f l = true <-> Forall (fun x => f x = true) l.
Proof.
  induction l as [|x l IH]; cbn [forallb].
  - split; [constructor | reflexivity].
  - rewrite andb_true_iff, IH. split.
    + intros [H1 H2]. constructor; assumption.
    + intro H. inversion H; subst. split; assumption.
Qed.

(** The function on any value: what it returns has string maps only and is
    the value itself if that had string maps only; it returns a value exactly
    when all keys are strings; and the key of an error is not a string. *)
Lemma Coerce_sound (v : value) :
  (forall r, CoerceInterfaceMapToStringMap v = Coerced r ->
     (string_maps_only r = true /\ (string_maps_only v = true -> r = v))
     /\ string_keys v = true)
  /\ (string_keys v = true ->
      exists r, CoerceInterfaceMapToStringMap v = Coerced r)
  /\ (forall k, CoerceInterfaceMapToStringMap v = UnableToCoerce k ->
        is_string k = false).
Proof.
  set (Q := fun v r : value =>
              string_maps_only r = true /\ (string_maps_only v = true -> r = v)).
  set (G := fun v : value => string_keys v = true).
  set (B := fun k : key => is_string k = false).
  assert (HQ : forall v r, Q v r -> string_maps_only r = true
                                    /\ (string_maps_only v = true -> r = v))
    by (intros ? ? H; exact H).
  induction v as [n|m IH|m IH|l IH] using value_induction;
    cbn [CoerceInterfaceMapToStringMap].
  - refine (conj _ (conj _ _)).
    + intros r E. injection E as <-. repeat split.
    + intros _. eexists. reflexivity.
    + intros k E. discriminate.
  - destruct (range_string_map_sound CoerceInterfaceMapToStringMap Q G B m IH)
      as (R1 & R2 & R3).
    refine (conj _ (conj _ _)).
    + intros r E.
      destruct (range_string_map CoerceInterfaceMapToStringMap m) as [t|e];
        [|discriminate].
      injection E as <-. destruct (R1 t eq_refl) as [F2 Fg].
      destruct (Forall2_same_entries Q m t F2 HQ) as [H1 H2].
      cbn [string_maps_only string_keys]. refine (conj (conj H1 _) _).
      * intro H. f_equal. apply H2. exact H.
      * apply forallb_Forall. exact Fg.
    + cbn [string_keys]. intro H. apply forallb_Forall in H.
      destruct (R2 H) as [t ->]. eexists. reflexivity.
    + intros k E.
      destruct (range_string_map CoerceInterfaceMapToStringMap m) as [t|e];
        [discriminate|].
      injection E as <-. apply R3. reflexivity.
  - destruct (range_interface_map_sound CoerceInterfaceMapToStringMap Q G B
                (fun n => eq_refl) m IH) as (R1 & R2 & R3).
    refine (conj _ (conj _ _)).
    + intros r E.
      destruct (range_interface_map CoerceInterfaceMapToStringMap m) as [t|e];
        [|discriminate].
      injection E as <-. destruct (R1 t eq_refl) as [F2 Fg].
      cbn [string_maps_only string_keys]. refine (conj (conj _ _) _).
      * exact (Forall2_coerced_entries Q m t F2 HQ).
      * discriminate.
      * apply forallb_Forall.
        apply Forall_impl with (2 := Fg). intros e [-> He]. exact He.
    + cbn [string_keys]. intro H. apply forallb_Forall in H.
      assert (H' : Forall (fun e => is_string (fst e) = true /\ G (snd e)) m)
        by (apply Forall_impl with (2 := H); intros e He;
            apply andb_true_iff in He; exact He).
      destruct (R2 H') as [t ->]. eexists. reflexivity.
    + intros k E.
      destruct (range_interface_map CoerceInterfaceMapToStringMap m) as [t|e];
        [discriminate|].
      injection E as <-. apply R3. reflexivity.
  - destruct (range_slice_sound CoerceInterfaceMapToStringMap Q G B l IH)
      as (R1 & R2 & R3).
    refine (conj _ (conj _ _)).
    + intros r E.
      destruct (range_slice CoerceInterfaceMapToStringMap l) as [t|e];
        [|discriminate].
      injection E as <-. destruct (R1 t eq_refl) as [F2 Fg].
      destruct (Forall2_same_elements Q l t F2 HQ) as [H1 H2].
      cbn [string_maps_only string_keys]. refine (conj (conj H1 _) _).
      * intro H. f_equal. apply H2. exact H.
      * apply forallb_Forall. exact Fg.
    + cbn [string_keys]. intro H. apply forallb_Forall in H.
      destruct (R2 H) as [t ->]. eexists. reflexivity.
    + intros k E.
      destruct (range_slice CoerceInterfaceMapToStringMap l) as [t|e];
        [discriminate|].
      injection E as <-. apply R3. reflexivity.
Qed.

Lemma string_maps_only_string_keys (v : value) :
  string_maps_only v = true -> string_keys v = true.
Proof.
  induction v as [n|m IH|m IH|l IH] using value_induction;
    cbn [string_maps_only string_keys]; intro H;
    [reflexivity | | discriminate | ];
    apply forallb_Forall in H; apply forallb_Forall;
    induction IH as [|x xs Hx _ IHxs]; inversion H; subst; constructor; auto.
Qed.

(** X26. When [CoerceInterfaceMapToStringMap] returns a value, no interface
    map is left anywhere in it, and coercing it again returns it unchanged;
    a value without interface maps is returned as it is. It returns a value
    exactly when every key of every interface map, at any depth, is a
    string; otherwise it returns the error for a key that is not a string. *)
Theorem CoerceInterfaceMapToStringMap_spec (v : value) :
  (forall r, CoerceInterfaceMapToStringMap v = Coerced r ->
     string_maps_only r = true
     /\ CoerceInterfaceMapToStringMap r = Coerced r)
  /\ (string_maps_only v = true -> CoerceInterfaceMapToStringMap v = Coerced v)
  /\ ((exists r, CoerceInterfaceMapToStringMap v = Coerced r)
      <-> string_keys v = true)
  /\ (forall k, CoerceInterfaceMapToStringMap v = UnableToCoerce k ->
        exists n, k = KeyOther n).
Proof.
  assert (U : forall x, string_maps_only x = true ->
                        CoerceInterfaceMapToStringMap x = Coerced x).
  { intros x Hx. destruct (Coerce_sound x) as (S1 & S2 & _).
    destruct (S2 (string_maps_only_string_keys x Hx)) as [r Hr].
    destruct (S1 r Hr) as [[_ E] _]. rewrite Hr, (E Hx). reflexivity. }
  destruct (Coerce_sound v) as (S1 & S2 & S3).
  refine (conj _ (conj (U v) (conj _ _))).
  - intros r Hr. destruct (S1 r Hr) as [[H1 _] _]. split; [exact H1|].
    apply U. exact H1.
  - split; [intros [r Hr]; apply (S1 r Hr) | exact S2].
  - intros k Hk. apply S3 in Hk. destruct k as [s|n]; [discriminate|].
    exists n. reflexivity.
Qed.

Lemma CoerceInterfaceMapToStringMap_spec_witness :
  string_maps_only (Slice [StringMap [("a"%string, Other 1)]; Other 2]) = true
  /\ CoerceInterfaceMapToStringMap
       (Slice [StringMap [("a"%string, Other 1)]; Other 2])
     = Coerced (Slice [StringMap [("a"%string, Other 1)]; Other 2])
  /\ CoerceInterfaceMapToStringMap
       (StringMap [("a"%string, InterfaceMap [(KeyString "b", Other 1)])])
     = Coerced (StringMap [("a"%string, StringMap [("b"%string, Other 1)])])
  /\ CoerceInterfaceMapToStringMap
       (Slice [InterfaceMap [(KeyString "b", Other 1); (KeyOther 7, Other 2)]])
     = UnableToCoerce (KeyOther 7).
Proof.
  assert (H : string_maps_only
                (Slice [StringMap [("a"%string, Other 1)]; Other 2]) = true)
    by reflexivity.
  refine (conj H (conj _ (conj eq_refl eq_refl))).
  exact (proj1 (proj2 (CoerceInterfaceMapToStringMap_spec _)) H).
Defined.

Lemma Forall2_keys {A B K : Type} (f : A -> K) (g : B -> K)
  (Q : A -> B -> Prop) (m : list A) (t : list B) :
  Forall2 (fun e e' => f e = g e' /\ Q e e') m t -> map f m = map g t.
Proof.
  intro F. induction F as [|e e' m t [Hk _] _ IH]; [reflexivity|].
  cbn [map]. rewrite Hk, IH. reflexivity.
Qed.

(** X27. A successful coercion keeps the shape of the value: a string map
    keeps its keys, an interface map becomes the string map of the same
    keys, and a slice keeps its length, each entry or element holding what
    [CoerceInterfaceMapToStringMap] returns for the one at the same place. *)
Theorem CoerceInterfaceMapToStringMap_shape (r : value) :
  (forall m, CoerceInterfaceMapToStringMap (StringMap m) = Coerced r ->
     exists typed,
       r = StringMap typed
       /\ map fst typed = map fst m
       /\ Forall2 (fun e e' =>
                     CoerceInterfaceMapToStringMap (snd e) = Coerced (snd e'))
            m typed)
  /\ (forall m, CoerceInterfaceMapToStringMap (InterfaceMap m) = Coerced r ->
        exists typed,
          r = StringMap typed
          /\ map KeyString (map fst typed) = map fst m
          /\ Forall2 (fun e e' =>
                        CoerceInterfaceMapToStringMap (snd e) = Coerced (snd e'))
               m typed)
  /\ (forall l, CoerceInterfaceMapToStringMap (Slice l) = Coerced r ->
        exists elements,
          r = Slice elements
          /\ List.length elements = List.length l
          /\ Forall2 (fun x x' => CoerceInterfaceMapToStringMap x = Coerced x')
               l elements).
Proof.
  set (Q := fun v x : value => CoerceInterfaceMapToStringMap v = Coerced x).
  set (G := fun v : value => exists x, CoerceInterfaceMapToStringMap v = Coerced x).
  set (B := fun _ : key => True).
  assert (S : forall v,
             (forall x, CoerceInterfaceMapToStringMap v = Coerced x ->
                        Q v x /\ G v)
             /\ (G v -> exists x, CoerceInterfaceMapToStringMap v = Coerced x)
             /\ (forall k, CoerceInterfaceMapToStringMap v = UnableToCoerce k ->
                           B k)).
  { intro v. refine (conj _ (conj (fun H => H) (fun _ _ => I))).
    intros x Hx. split; [exact Hx | exists x; exact Hx]. }
  refine (conj _ (conj _ _)).
  - intros m E. cbn [CoerceInterfaceMapToStringMap] in E.
    destruct (range_string_map_sound CoerceInterfaceMapToStringMap Q G B m)
      as (R1 & _); [apply Forall_forall; intros e _; apply S|].
    destruct (range_string_map CoerceInterfaceMapToStringMap m) as [t|e];
      [|discriminate].
    injection E as <-. destruct (R1 t eq_refl) as [F2 _].
    exists t. refine (conj eq_refl (conj _ _)).
    + symmetry. exact (Forall2_keys fst fst _ m t F2).
    + apply Forall2_impl with (2 := F2). intros e e' [_ H]. exact H.
  - intros m E. cbn [CoerceInterfaceMapToStringMap] in E.
    destruct (range_interface_map_sound CoerceInterfaceMapToStringMap Q G B
                (fun _ => I) m)
      as (R1 & _); [apply Forall_forall; intros e _; apply S|].
    destruct (range_interface_map CoerceInterfaceMapToStringMap m) as [t|e];
      [|discriminate].
    injection E as <-. destruct (R1 t eq_refl) as [F2 _].
    exists t. refine (conj eq_refl (conj _ _)).
    + rewrite map_map. symmetry.
      exact (Forall2_keys fst (fun e => KeyString (fst e)) _ m t F2).
    + apply Forall2_impl with (2 := F2). intros e e' [_ H]. exact H.
  - intros l E. cbn [CoerceInterfaceMapToStringMap] in E.
    destruct (range_slice_sound CoerceInterfaceMapToStringMap Q G B l)
      as (R1 & _); [apply Forall_forall; intros e _; apply S|].
    destruct (range_slice CoerceInterfaceMapToStringMap l) as [t|e];
      [|discriminate].
    injection E as <-. destruct (R1 t eq_refl) as [F2 _].
    exists t. refine (conj eq_refl (conj _ F2)).
    symmetry. apply (Forall2_length F2).
Qed.

Lemma CoerceInterfaceMapToStringMap_shape_witness :
  CoerceInterfaceMapToStringMap
    (InterfaceMap [(KeyString "a", Other 1); (KeyString "b", Slice [])])
  = Coerced (StringMap [("a"%string, Other 1); ("b"%string, Slice [])])
  /\ exists typed,
       StringMap [("a"%string, Other 1); ("b"%string, Slice [])] = StringMap typed
       /\ map KeyString (map fst typed) = [KeyString "a"; KeyString "b"].
Proof.
  assert (H : CoerceInterfaceMapToStringMap
                (InterfaceMap [(KeyString "a", Other 1);
                               (KeyString "b", Slice [])])
              = Coerced (StringMap [("a"%string, Other 1);
                                    ("b"%string, Slice [])]))
    by reflexivity.
  split; [exact H|].
  destruct (proj1 (proj2 (CoerceInterfaceMapToStringMap_shape _)) _ H)
    as (typed & E & K & _).
  exists typed. split; [exact E | exact K].
Defined.
